(** * wl-scanner: the Wayland protocol scanner, embedded and verified

    The program under study is [scanner.go]: it decodes a protocol
    description into a tree of interfaces, requests, events and enums, and
    writes three blocks of Go text (constants, request codes, interface
    definitions).  This development embeds the generator as Rocq functions
    over strings, with the package-level variables of the program threaded
    as an explicit state, and proves properties of the emitted text.

    Strings are sequences of bytes.  The Go library functions used by the
    scanner are modelled byte for byte on the ASCII range, which is the
    range protocol names are written in; bytes above 0x7F are carried
    through unchanged and count as word characters. *)

From Stdlib Require Import Ascii String NArith DecimalString DecimalNat.
From stdpp Require Import gmap strings list fin_maps.

Local Open Scope char_scope.
Local Open Scope stdpp_scope.

(** ** The Go library functions the scanner calls *)

Module unicode.

(** [lo <= r && r <= hi] on bytes. *)
Definition between (lo hi r : ascii) : bool :=
  ((N_of_ascii lo <=? N_of_ascii r) && (N_of_ascii r <=? N_of_ascii hi))%N.

(** [unicode.ToTitle] on the ASCII range: ['a'..'z'] loses 32, every
    other byte is returned as it is. *)
Definition ToTitle (r : ascii) : ascii :=
  if between "a" "z" r then ascii_of_N (N_of_ascii r - 32) else r.

End unicode.

Module GoStrings.

(** [strings.HasPrefix(s, prefix)]. *)
Fixpoint HasPrefix (s prefix : string) : bool :=
  match prefix, s with
  | EmptyString, _ => true
  | String _ _, EmptyString => false
  | String p prefix', String c s' =>
      if Ascii.eqb c p then HasPrefix s' prefix' else false
  end.

(** [s[n:]] for [n <= len(s)]. *)
Fixpoint slice_from (n : nat) (s : string) : string :=
  match n, s with
  | O, _ => s
  | S _, EmptyString => EmptyString
  | S n', String _ s' => slice_from n' s'
  end.

(** [strings.TrimPrefix(s, prefix)]. *)
Definition TrimPrefix (s prefix : string) : string :=
  if HasPrefix s prefix then slice_from (String.length prefix) s else s.

(** [strings.Replace(s, old, new, -1)] for a one-byte [old], which is how
    [CamelCase] calls it: every occurrence of [old] becomes [new]. *)
Fixpoint Replace (s : string) (old : ascii) (new : string) : string :=
  match s with
  | EmptyString => EmptyString
  | String c s' =>
      (if Ascii.eqb c old then new else String c EmptyString)
        +:+ Replace s' old new
  end.

(** [isSeparator]: ASCII letters, digits and the underscore are not
    separators, every other ASCII byte is. *)
Definition isSeparator (r : ascii) : bool :=
  if (N_of_ascii r <=? 127)%N then
    if unicode.between "0" "9" r then false
    else if unicode.between "a" "z" r then false
    else if unicode.between "A" "Z" r then false
    else if Ascii.eqb r "_" then false
    else true
  else false.

(** [strings.Title]: the closure remembers the previous byte [prev] and
    maps a byte to title case when [prev] is a separator. *)
Fixpoint Title_from (prev : ascii) (s : string) : string :=
  match s with
  | EmptyString => EmptyString
  | String r s' =>
      String (if isSeparator prev then unicode.ToTitle r else r)
             (Title_from r s')
  end.

Definition Title (s : string) : string := Title_from " " s.

(** [strings.ToTitle]: every byte mapped to title case. *)
Fixpoint ToTitle (s : string) : string :=
  match s with
  | EmptyString => EmptyString
  | String r s' => String (unicode.ToTitle r) (ToTitle s')
  end.

End GoStrings.

Module fmt.

(** The verb [%d] applied to a non-negative [int]. *)
Definition d (n : nat) : string := NilZero.string_of_uint (Nat.to_uint n).

(** The line feed that the format strings spell backslash-n. *)
Definition nl : string := String "010" EmptyString.

End fmt.

(** ** The naming rule *)

(** [CamelCase], "only cases". *)
Definition CamelCase (wlName : string) : string :=
  let wlName :=
    if GoStrings.HasPrefix wlName "wl_"
    then GoStrings.TrimPrefix wlName "wl_" else wlName in
  (* replace all "_" chars to " " chars *)
  let wlName := GoStrings.Replace wlName "_" " " in
  (* Capitalize first chars *)
  let wlName := GoStrings.Title wlName in
  (* remove all spaces *)
  let wlName := GoStrings.Replace wlName " " "" in
  wlName.

(** ** The schema model: the structs the description is decoded into *)

Record Description := {
  desc_Summary : string;
  desc_Description : string }.

Record Arg := {
  arg_Name : string;
  arg_Type : string;
  arg_Interface : string;
  arg_Enum : string;
  arg_AllowNull : bool;
  arg_Summary : string }.

Record Request := {
  req_Name : string;
  req_Type : string;
  req_Since : Z;
  req_Description : Description;
  req_Args : list Arg }.

Record Event := {
  event_Name : string;
  event_Since : Z;
  event_Description : Description;
  event_Args : list Arg }.

Record Entry := {
  entry_Name : string;
  entry_Value : string;
  entry_Summary : string }.

Record Enum := {
  enum_Name : string;
  enum_BitField : bool;
  enum_Description : Description;
  enum_Entries : list Entry }.

Record Interface := {
  iface_Name : string;
  iface_Version : Z;
  iface_Since : Z;
  iface_Description : Description;
  iface_Requests : list Request;
  iface_Events : list Event;
  iface_Enums : list Enum }.

Record Protocol := {
  proto_Name : string;
  proto_Copyright : string;
  proto_Interfaces : list Interface }.

(** ** Package-level variables *)

(** Indexing a Go [map[string]string]: a missing key yields the zero value,
    the empty string. *)
Definition index (m : gmap string string) (k : string) : string :=
  default "" (m !! k).

Definition wlTypes : gmap string string :=
  list_to_map
    [ ("int", "int32");
      ("uint", "uint32");
      ("string", "string");
      ("fd", "uintptr");
      ("fixed", "float32");
      ("array", "[]int32") ].

(** [wlNames] and the three [bytes.Buffer]s. *)
Record Globals := {
  wlNames : gmap string string;
  constBuffer : string;
  ifaceBuffer : string;
  reqCodesBuffer : string }.

Definition constBuffer_WriteString (s : string) (g : Globals) : Globals :=
  {| wlNames := wlNames g;
     constBuffer := constBuffer g +:+ s;
     ifaceBuffer := ifaceBuffer g;
     reqCodesBuffer := reqCodesBuffer g |}.

Definition ifaceBuffer_WriteString (s : string) (g : Globals) : Globals :=
  {| wlNames := wlNames g;
     constBuffer := constBuffer g;
     ifaceBuffer := ifaceBuffer g +:+ s;
     reqCodesBuffer := reqCodesBuffer g |}.

Definition reqCodesBuffer_WriteString (s : string) (g : Globals) : Globals :=
  {| wlNames := wlNames g;
     constBuffer := constBuffer g;
     ifaceBuffer := ifaceBuffer g;
     reqCodesBuffer := reqCodesBuffer g +:+ s |}.

(** [registerAndCase], "register names to map". *)
Definition registerAndCase (wlName : string) (g : Globals) : string * Globals :=
  let orj := wlName in
  let wlName := CamelCase wlName in
  (wlName,
   {| wlNames := <[orj := wlName]> (wlNames g);
      constBuffer := constBuffer g;
      ifaceBuffer := ifaceBuffer g;
      reqCodesBuffer := reqCodesBuffer g |}).

(** ** Request signatures and bodies *)

(** The loop [for i, s := range l] that writes the elements of a slice with
    a comma before each one but the first. *)
Fixpoint write_commas (i : nat) (l : list string) (buf : string) : string :=
  match l with
  | [] => buf
  | s :: l' =>
      let buf := if (0 <? i)%nat then buf +:+ "," else buf in
      write_commas (S i) l' (buf +:+ s)
  end.

(** One iteration of the first loop of [requestArgs]. *)
Definition requestArgs_arg (names : gmap string string)
    (args : list string) (arg : Arg) : list string :=
  if String.eqb (arg_Type arg) "new_id" then
    (* special type, for example registry.bind *)
    if String.eqb (arg_Interface arg) "" then
      let args := args ++ ["iface string"] in
      let args := args ++ ["version uint32"] in
      args ++ [arg_Name arg +:+ " Proxy"]
    else args
  else if String.eqb (arg_Type arg) "object"
          && negb (String.eqb (arg_Interface arg) "") then
    let argTypeName := index names (arg_Interface arg) in
    args ++ [arg_Name arg +:+ " *" +:+ argTypeName]
  else
    args ++ [arg_Name arg +:+ " " +:+ index wlTypes (arg_Type arg)].

(** The slice [args] of [requestArgs] when its first loop ends. *)
Definition requestArgs_args (names : gmap string string) (req : Request)
    : list string :=
  fold_left (requestArgs_arg names) (req_Args req) [].

Definition requestArgs (names : gmap string string) (req : Request) : string :=
  write_commas 0 (requestArgs_args names req) "".

(** One iteration of the first loop of [requestRets]. *)
Definition requestRets_arg (names : gmap string string)
    (rets : list string) (arg : Arg) : list string :=
  if String.eqb (arg_Type arg) "new_id"
     && negb (String.eqb (arg_Interface arg) "") then
    let retTypeName := index names (arg_Interface arg) in
    rets ++ ["*" +:+ retTypeName]
  else rets.

(** The slice [rets] of [requestRets] before it is written out. *)
Definition requestRets_rets (names : gmap string string) (req : Request)
    : list string :=
  let rets := fold_left (requestRets_arg names) (req_Args req) [] in
  (* all request have an error return *)
  rets ++ [" error"].

Definition requestRets (names : gmap string string) (req : Request) : string :=
  let rets := requestRets_rets names req in
  let retsBuffer := "" in
  let retsBuffer :=
    if (1 <? length rets)%nat then retsBuffer +:+ "(" else retsBuffer in
  let retsBuffer := write_commas 0 rets retsBuffer in
  if (1 <? length rets)%nat then retsBuffer +:+ ")" else retsBuffer.

(** The local variables of [requestBody] that its first loop updates. *)
Record BodyLocals := {
  params : list string;
  bodyBuffer : string;
  hasRetType : string }.

(** One iteration of the first loop of [requestBody]. *)
Definition requestBody_arg (names : gmap string string)
    (l : BodyLocals) (arg : Arg) : BodyLocals :=
  if String.eqb (arg_Type arg) "new_id" then
    if negb (String.eqb (arg_Interface arg) "") then
      let retTypeName := index names (arg_Interface arg) in
      {| bodyBuffer :=
           bodyBuffer l +:+ "ret := New" +:+ retTypeName
                        +:+ "(p.Connection())" +:+ fmt.nl;
         params := params l ++ ["Proxy(ret)"];
         hasRetType := "ret," |}
    else
      {| bodyBuffer := bodyBuffer l;
         params := ((params l ++ ["iface"]) ++ ["version"]) ++ [arg_Name arg];
         hasRetType := hasRetType l |}
  else
    {| bodyBuffer := bodyBuffer l;
       params := params l ++ [arg_Name arg];
       hasRetType := hasRetType l |}.

Definition requestBody_locals (names : gmap string string) (req : Request)
    : BodyLocals :=
  fold_left (requestBody_arg names) (req_Args req)
    {| params := []; bodyBuffer := ""; hasRetType := "" |}.

Definition requestBody (names : gmap string string) (req : Request)
    (reqCodeName : string) : string :=
  let l := requestBody_locals names req in
  let paramsBuffer :=
    fold_left (fun buf param => buf +:+ "," +:+ param) (params l) "" in
  bodyBuffer l +:+ "return " +:+ hasRetType l
    +:+ " p.Connection().SendRequest(p," +:+ reqCodeName
    +:+ paramsBuffer +:+ ")".

(** ** The emitter: the body of [main] *)

(** The type of an event field, and the line written for it.  Both
    branches of the source write the same format. *)
Definition event_field (names : gmap string string) (arg : Arg) : string :=
  match wlTypes !! arg_Type arg with
  | Some t => (* if basic type *)
      CamelCase (arg_Name arg) +:+ " " +:+ t +:+ fmt.nl
  | None => (* interface type *)
      let t :=
        if (String.eqb (arg_Type arg) "object"
            || String.eqb (arg_Type arg) "new_id")
           && negb (String.eqb (arg_Interface arg) "")
        then "*" +:+ index names (arg_Interface arg)
        else "Proxy" in
      CamelCase (arg_Name arg) +:+ " " +:+ t +:+ fmt.nl
  end.

(** The variables declared at the top of the per-interface loop. *)
Record EventLocals := {
  eventBuffer : string;
  eventNames : list string }.

(** One iteration of the loop over [iface.Events]. *)
Definition event_iter (ifaceName : string)
    (st : Globals * EventLocals) (event : Event) : Globals * EventLocals :=
  let (g, l) := st in
  let (eventName, g) := registerAndCase (event_Name event) g in
  let typeName := ifaceName +:+ eventName +:+ "Event" in
  let buf :=
    eventBuffer l +:+ (fmt.nl +:+ "type " +:+ typeName +:+ " struct {" +:+ fmt.nl) in
  let buf :=
    fold_left (fun buf arg => buf +:+ event_field (wlNames g) arg)
              (event_Args event) buf in
  (g, {| eventNames := eventNames l ++ [eventName];
         eventBuffer := buf +:+ ("}" +:+ fmt.nl) |}).

(** The field of the interface type for one event. *)
Definition chan_field (ifaceName evName : string) : string :=
  (evName +:+ "Chan") +:+ " chan " +:+ (ifaceName +:+ evName +:+ "Event") +:+ fmt.nl.

(** The statement of the constructor for one event. *)
Definition chan_make (ifaceName evName : string) : string :=
  "ret." +:+ (evName +:+ "Chan") +:+ " = make(chan "
         +:+ (ifaceName +:+ evName +:+ "Event") +:+ ")" +:+ fmt.nl.

(** The name of the request-code constant; the first underscore keeps the
    constant unexported. *)
Definition reqCodeName_of (ifaceName reqName : string) : string :=
  GoStrings.ToTitle ("_" +:+ ifaceName +:+ "_" +:+ reqName).

(** One iteration of the loop [for order, req := range iface.Requests];
    [order] is used for request identification. *)
Definition request_iter (ifaceName : string) (order : nat) (req : Request)
    (g : Globals) : Globals :=
  let reqName := CamelCase (req_Name req) in
  let reqCodeName := reqCodeName_of ifaceName reqName in
  let g :=
    reqCodesBuffer_WriteString
      (reqCodeName +:+ " = " +:+ fmt.d order +:+ fmt.nl) g in
  let g :=
    ifaceBuffer_WriteString
      (fmt.nl +:+ "func (p *" +:+ ifaceName +:+ ") " +:+ reqName +:+ "(") g in
  (* get args buffer *)
  let g := ifaceBuffer_WriteString (requestArgs (wlNames g) req) g in
  let g := ifaceBuffer_WriteString ")" g in
  (* get returns buffer *)
  let g := ifaceBuffer_WriteString (requestRets (wlNames g) req) g in
  let g := ifaceBuffer_WriteString ("{" +:+ fmt.nl) g in
  (* get method body *)
  let g :=
    ifaceBuffer_WriteString (requestBody (wlNames g) req reqCodeName) g in
  ifaceBuffer_WriteString (fmt.nl +:+ "}" +:+ fmt.nl) g.

(** The loop itself: the index [order] starts at 0 and grows by one with
    each request. *)
Fixpoint requests_loop (ifaceName : string) (order : nat)
    (reqs : list Request) (g : Globals) : Globals :=
  match reqs with
  | [] => g
  | req :: reqs' =>
      requests_loop ifaceName (S order) reqs'
        (request_iter ifaceName order req g)
  end.

(** One iteration of the loop over [enum.Entries]. *)
Definition entry_iter (ifaceName enumName constTypeName : string)
    (g : Globals) (entry : Entry) : Globals :=
  let (entryName, g) := registerAndCase (entry_Name entry) g in
  let constName := ifaceName +:+ enumName +:+ entryName in
  constBuffer_WriteString
    (constName +:+ " " +:+ constTypeName +:+ " = " +:+ entry_Value entry +:+ fmt.nl) g.

(** One iteration of the loop over [iface.Enums]. *)
Definition enum_iter (ifaceName : string) (g : Globals) (enum : Enum)
    : Globals :=
  let (enumName, g) := registerAndCase (enum_Name enum) g in
  let constTypeName := ifaceName +:+ enumName in
  (* enums are uint *)
  let g :=
    constBuffer_WriteString
      (fmt.nl +:+ "type " +:+ constTypeName +:+ " uint" +:+ fmt.nl) g in
  let g := constBuffer_WriteString ("const (" +:+ fmt.nl) g in
  let g :=
    fold_left (entry_iter ifaceName enumName constTypeName)
              (enum_Entries enum) g in
  constBuffer_WriteString (")" +:+ fmt.nl) g.

(** One iteration of the second loop over [protocol.Interfaces]. *)
Definition interface_iter (g : Globals) (iface : Interface) : Globals :=
  let ifaceName := index (wlNames g) (iface_Name iface) in
  (* Event struct types *)
  let (g, ev) :=
    fold_left (event_iter ifaceName) (iface_Events iface)
              (g, {| eventBuffer := ""; eventNames := [] |}) in
  let g := ifaceBuffer_WriteString (eventBuffer ev) g in
  (* interface type definition *)
  let g :=
    ifaceBuffer_WriteString
      (fmt.nl +:+ "type " +:+ ifaceName +:+ " struct {" +:+ fmt.nl) g in
  let g := ifaceBuffer_WriteString ("BaseProxy" +:+ fmt.nl) g in
  let g :=
    fold_left (fun g evName =>
                 ifaceBuffer_WriteString (chan_field ifaceName evName) g)
              (eventNames ev) g in
  let g := ifaceBuffer_WriteString ("}" +:+ fmt.nl) g in
  (* interface constructor *)
  let g :=
    ifaceBuffer_WriteString
      (fmt.nl +:+ "func New" +:+ ifaceName +:+ "(conn *Connection) *"
              +:+ ifaceName +:+ " {" +:+ fmt.nl) g in
  let g :=
    ifaceBuffer_WriteString ("ret := new(" +:+ ifaceName +:+ ")" +:+ fmt.nl) g in
  let g :=
    fold_left (fun g evName =>
                 ifaceBuffer_WriteString (chan_make ifaceName evName) g)
              (eventNames ev) g in
  let g := ifaceBuffer_WriteString ("conn.Register(ret)" +:+ fmt.nl) g in
  let g := ifaceBuffer_WriteString ("return ret" +:+ fmt.nl) g in
  let g := ifaceBuffer_WriteString ("}" +:+ fmt.nl) g in
  (* interface method definitions (requests) *)
  let g := requests_loop ifaceName 0 (iface_Requests iface) g in
  (* Enums - Constants *)
  fold_left (enum_iter ifaceName) (iface_Enums iface) g.

(** The state of the package-level variables when [main] starts to print:
    everything between the decoding of the description and the three
    writes to the standard output. *)
Definition generate (protocol : Protocol) : Globals :=
  let g :=
    {| wlNames := ∅; constBuffer := ""; ifaceBuffer := "";
       reqCodesBuffer := "" |} in
  let g := constBuffer_WriteString "package wl" g in
  let g :=
    fold_left (fun g iface =>
                 (* required for arg types *)
                 snd (registerAndCase (iface_Name iface) g))
              (proto_Interfaces protocol) g in
  let g :=
    reqCodesBuffer_WriteString
      (fmt.nl +:+ "//Interface Request Codes" +:+ fmt.nl) g in
  let g := reqCodesBuffer_WriteString (fmt.nl +:+ "const (" +:+ fmt.nl) g in
  let g := fold_left interface_iter (proto_Interfaces protocol) g in
  reqCodesBuffer_WriteString ")" g.

(** How a run of [main] ends: [log.Fatal] with an error, or the text
    written to the standard output. *)
Inductive Outcome :=
  | Fatal (err : string)
  | Stdout (text : string).

(** [main].  Its input is what locating, opening and decoding
    [wayland.xml] gave: the error of the step that failed, or the decoded
    protocol. *)
Definition main (decoded : string + Protocol) : Outcome :=
  match decoded with
  | inl err => Fatal err
  | inr protocol =>
      let g := generate protocol in
      Stdout ((constBuffer g +:+ reqCodesBuffer g) +:+ ifaceBuffer g)
  end.

(** ** Sample protocol descriptions *)

Definition no_description : Description :=
  {| desc_Summary := ""; desc_Description := "" |}.

(** [<arg name=... type=... interface=.../>]. *)
Definition mk_arg (name type iface : string) : Arg :=
  {| arg_Name := name; arg_Type := type; arg_Interface := iface;
     arg_Enum := ""; arg_AllowNull := false; arg_Summary := "" |}.

Definition mk_request (name : string) (args : list Arg) : Request :=
  {| req_Name := name; req_Type := ""; req_Since := 0;
     req_Description := no_description; req_Args := args |}.

Definition mk_event (name : string) (args : list Arg) : Event :=
  {| event_Name := name; event_Since := 0;
     event_Description := no_description; event_Args := args |}.

Definition mk_interface (name : string) (reqs : list Request)
    (events : list Event) (enums : list Enum) : Interface :=
  {| iface_Name := name; iface_Version := 1; iface_Since := 0;
     iface_Description := no_description;
     iface_Requests := reqs; iface_Events := events; iface_Enums := enums |}.

Definition mk_protocol (ifaces : list Interface) : Protocol :=
  {| proto_Name := "sample"; proto_Copyright := "";
     proto_Interfaces := ifaces |}.

(** The end-to-end scenario: one interface [foo_bar] with the request
    [do_thing(count : int)] and the event [happened]. *)
Definition foo_bar_protocol : Protocol :=
  mk_protocol
    [ mk_interface "foo_bar"
        [ mk_request "do_thing" [ mk_arg "count" "int" "" ] ]
        [ mk_event "happened" [] ]
        [] ].

(** ** Predicates used in the statements *)



(** A name in strict snake case: words of lower-case letters and digits,
    each starting with a letter, joined by single underscores.
    [at_start] says that a word has to start here. *)
Fixpoint snake_from (at_start : bool) (s : string) : bool :=
  match s with
  | EmptyString => negb at_start
  | String c s' =>
      if at_start then unicode.between "a" "z" c && snake_from false s'
      else if Ascii.eqb c "_" then snake_from true s'
      else (unicode.between "a" "z" c || unicode.between "0" "9" c)
           && snake_from false s'
  end.

Definition snake_case (s : string) : bool := snake_from true s.

(** Reading a generated identifier back: an upper-case letter opens a
    word, so it is written as an underscore and the lower-case letter. *)
Fixpoint unwords (s : string) : string :=
  match s with
  | EmptyString => EmptyString
  | String c s' =>
      if unicode.between "A" "Z" c
      then String "_" (String (ascii_of_N (N_of_ascii c + 32)) (unwords s'))
      else String c (unwords s')
  end.

(** A new-id argument with a statically known interface. *)
Definition known_new_id (arg : Arg) : bool :=
  String.eqb (arg_Type arg) "new_id"
  && negb (String.eqb (arg_Interface arg) "").

(** An argument of one of the kinds of the table [wlTypes]. *)
Definition primitive (arg : Arg) : bool :=
  bool_decide (is_Some (wlTypes !! arg_Type arg)).

(** The request with its known-interface new-id arguments taken out. *)
Definition without_known_new_ids (req : Request) : Request :=
  {| req_Name := req_Name req;
     req_Type := req_Type req;
     req_Since := req_Since req;
     req_Description := req_Description req;
     req_Args := List.filter (fun arg => negb (known_new_id arg)) (req_Args req) |}.

(** A request and an event whose arguments name an interface, [wl_missing],
    that the protocol does not declare. *)
Definition unregistered_protocol : Protocol :=
  mk_protocol
    [ mk_interface "wl_foo"
        [ mk_request "bar" [ mk_arg "x" "object" "wl_missing" ];
          mk_request "baz" [ mk_arg "id" "new_id" "wl_missing" ] ]
        [ mk_event "ev" [ mk_arg "y" "object" "wl_missing" ] ]
        [] ].

(** A request and an event with an argument of a kind, [double], that the
    table [wlTypes] does not have. *)
Definition unknown_kind_protocol : Protocol :=
  mk_protocol
    [ mk_interface "wl_foo"
        [ mk_request "bar" [ mk_arg "x" "double" "" ] ]
        [ mk_event "ev" [ mk_arg "y" "double" "" ] ]
        [] ].

(** A request with an object argument of no known interface, and an event
    with the same argument. *)
Definition anonymous_object_protocol : Protocol :=
  mk_protocol
    [ mk_interface "wl_foo"
        [ mk_request "bar" [ mk_arg "x" "object" "" ] ]
        [ mk_event "ev" [ mk_arg "x" "object" "" ] ]
        [] ].

(** A request with two new-id arguments of known interfaces. *)
Definition two_new_ids_protocol : Protocol :=
  mk_protocol
    [ mk_interface "wl_a" [] [] [];
      mk_interface "wl_b" [] [] [];
      mk_interface "wl_foo"
        [ mk_request "make_pair"
            [ mk_arg "first" "new_id" "wl_a";
              mk_arg "second" "new_id" "wl_b" ] ]
        [] [] ].

(** The texts of a list, one after the other. *)
Definition flatten (l : list string) : string := foldr String.append "" l.

(** The line of the request-code block for the request at position [order]
    of an interface. *)
Definition request_code_line (iface : Interface) (order : nat) (req : Request)
    : string :=
  reqCodeName_of (CamelCase (iface_Name iface)) (CamelCase (req_Name req))
    +:+ " = " +:+ fmt.d order +:+ fmt.nl.

Definition request_code_lines (iface : Interface) : list string :=
  imap (request_code_line iface) (iface_Requests iface).

(** The generated identifiers of the events of an interface. *)
Definition event_identifiers (iface : Interface) : list string :=
  map (fun event => CamelCase (event_Name event)) (iface_Events iface).

(** The definition of the interface type, with the given channel fields. *)
Definition interface_type_text (ifaceName : string) (fields : list string)
    : string :=
  (fmt.nl +:+ "type " +:+ ifaceName +:+ " struct {" +:+ fmt.nl)
    +:+ ("BaseProxy" +:+ fmt.nl)
    +:+ flatten fields
    +:+ ("}" +:+ fmt.nl).

(** The constructor of the interface type, with the given statements
    between the allocation and the registration. *)
Definition constructor_text (ifaceName : string) (makes : list string)
    : string :=
  (fmt.nl +:+ "func New" +:+ ifaceName +:+ "(conn *Connection) *"
          +:+ ifaceName +:+ " {" +:+ fmt.nl)
    +:+ ("ret := new(" +:+ ifaceName +:+ ")" +:+ fmt.nl)
    +:+ flatten makes
    +:+ ("conn.Register(ret)" +:+ fmt.nl)
    +:+ ("return ret" +:+ fmt.nl)
    +:+ ("}" +:+ fmt.nl).

(** A step of the emitter that leaves the request-code and interface
    buffers alone and keeps every name that is registered with its
    generated identifier registered so. *)
Definition quiet (g g' : Globals) : Prop :=
  reqCodesBuffer g' = reqCodesBuffer g
  ∧ ifaceBuffer g' = ifaceBuffer g
  ∧ ∀ k : string,
      wlNames g !! k = Some (CamelCase k) →
      wlNames g' !! k = Some (CamelCase k).

(** Three requests of one interface, and the same with a request put
    between the second and the third. *)
Definition abc_protocol : Protocol :=
  mk_protocol
    [ mk_interface "wl_foo"
        [ mk_request "a" []; mk_request "b" []; mk_request "c" [] ] [] [] ].

Definition ab_new_c_protocol : Protocol :=
  mk_protocol
    [ mk_interface "wl_foo"
        [ mk_request "a" []; mk_request "b" []; mk_request "new_request" [];
          mk_request "c" [] ] [] [] ].




(** What the dispatch call is given for one argument of the request. *)
Definition dispatch_values (arg : Arg) : list string :=
  if String.eqb (arg_Type arg) "new_id" then
    if negb (String.eqb (arg_Interface arg) "") then ["Proxy(ret)"]
    else ["iface"; "version"; arg_Name arg]
  else [arg_Name arg].

(** The statement that constructs the instance of a new-id argument. *)
Definition construction (names : gmap string string) (arg : Arg) : string :=
  "ret := New" +:+ index names (arg_Interface arg)
               +:+ "(p.Connection())" +:+ fmt.nl.

(** The names that the loop over one enum registers: the enum and its
    entries. *)
Definition enum_names (enum : Enum) : list string :=
  enum_Name enum :: map entry_Name (enum_Entries enum).

(** The names that the second loop of [main] registers for an interface:
    its events, its enums and their entries. *)
Definition member_names (iface : Interface) : list string :=
  map event_Name (iface_Events iface)
  ++ flat_map enum_names (iface_Enums iface).

(** All the names that a run registers. *)
Definition registered_names (protocol : Protocol) : list string :=
  map iface_Name (proto_Interfaces protocol)
  ++ flat_map member_names (proto_Interfaces protocol).

(** A step of the emitter that registers the names of [l], each with its
    generated identifier, and leaves every other entry of the table as it
    was. *)
Definition registers (l : list string) (g g' : Globals) : Prop :=
  ∀ k : string,
    wlNames g' !! k
    = if decide (k ∈ l) then Some (CamelCase k) else wlNames g !! k.

(** The constant written for one entry of an enum. *)
Definition entry_line (ifaceName enumName : string) (entry : Entry) : string :=
  (ifaceName +:+ enumName +:+ CamelCase (entry_Name entry))
    +:+ " " +:+ (ifaceName +:+ enumName)
    +:+ " = " +:+ entry_Value entry +:+ fmt.nl.

(** The type and the constant group written for one enum. *)
Definition enum_text (ifaceName : string) (enum : Enum) : string :=
  (fmt.nl +:+ "type " +:+ (ifaceName +:+ CamelCase (enum_Name enum))
          +:+ " uint" +:+ fmt.nl)
    +:+ ("const (" +:+ fmt.nl)
    +:+ flatten (map (entry_line ifaceName (CamelCase (enum_Name enum)))
                     (enum_Entries enum))
    +:+ (")" +:+ fmt.nl).

(** The part of the constants block that comes from one interface. *)
Definition constants_text (iface : Interface) : list string :=
  map (enum_text (CamelCase (iface_Name iface))) (iface_Enums iface).

(** The method written for one request, with the name table [names]. *)
Definition method_text (names : gmap string string) (ifaceName : string)
    (req : Request) : string :=
  (fmt.nl +:+ "func (p *" +:+ ifaceName +:+ ") "
          +:+ CamelCase (req_Name req) +:+ "(")
    +:+ requestArgs names req
    +:+ ")"
    +:+ requestRets names req
    +:+ ("{" +:+ fmt.nl)
    +:+ requestBody names req
          (reqCodeName_of ifaceName (CamelCase (req_Name req)))
    +:+ (fmt.nl +:+ "}" +:+ fmt.nl).

(** The struct type written for one event, with the name table [names]. *)
Definition event_type_text (names : gmap string string) (ifaceName : string)
    (event : Event) : string :=
  (fmt.nl +:+ "type "
          +:+ (ifaceName +:+ CamelCase (event_Name event) +:+ "Event")
          +:+ " struct {" +:+ fmt.nl)
    +:+ flatten (map (event_field names) (event_Args event))
    +:+ ("}" +:+ fmt.nl).

(** A name table in which every entry holds the identifier of its key. *)
Definition cased (names : gmap string string) : Prop :=
  ∀ k v : string, names !! k = Some v → v = CamelCase k.

(** A new-id argument with no interface, as in [registry.bind]. *)
Definition anonymous_new_id (arg : Arg) : bool :=
  String.eqb (arg_Type arg) "new_id" && String.eqb (arg_Interface arg) "".

(** An argument that is not a new-id. *)
Definition plain (arg : Arg) : bool :=
  negb (String.eqb (arg_Type arg) "new_id").

(** ** Facts about strings *)

#[local] Arguments String.append !s1 s2 : simpl nomatch.

Lemma append_nil_r (s : string) : s +:+ "" = s.
Proof. induction s as [|c s IH]; simpl; [reflexivity | now rewrite IH]. Qed.

Lemma append_assoc (a b c : string) : (a +:+ b) +:+ c = a +:+ (b +:+ c).
Proof. induction a as [|x a IH]; simpl; [reflexivity | now rewrite IH]. Qed.
















(** ** The naming rule on snake-case names *)

Ltac each_byte_with_hyp c :=
  destruct c as [[] [] [] [] [] [] [] []]; vm_compute;
  first [ reflexivity | intros; discriminate | intros; reflexivity
        | intuition discriminate ].

Lemma lower_facts (c : ascii) :
  unicode.between "a" "z" c = true →
  Ascii.eqb c "_" = false
  ∧ Ascii.eqb (unicode.ToTitle c) " " = false
  ∧ unicode.between "A" "Z" (unicode.ToTitle c) = true
  ∧ ascii_of_N (N_of_ascii (unicode.ToTitle c) + 32) = c.
Proof. each_byte_with_hyp c. Qed.

Lemma word_byte_facts (c : ascii) :
  unicode.between "a" "z" c || unicode.between "0" "9" c = true →
  Ascii.eqb c " " = false
  ∧ unicode.between "A" "Z" c = false
  ∧ GoStrings.isSeparator c = false.
Proof. each_byte_with_hyp c. Qed.

(** The three steps of [CamelCase] after the prefix is gone can be read
    back on a snake-case name. *)
Lemma unwords_CamelCase_steps (s : string) : ∀ (at_start : bool) (prev : ascii),
  snake_from at_start s = true →
  GoStrings.isSeparator prev = at_start →
  unwords
    (GoStrings.Replace
       (GoStrings.Title_from prev (GoStrings.Replace s "_" " ")) " " "")
  = if at_start then String "_" s else s.
Proof.
  induction s as [|c s IH]; intros at_start prev Hsnake Hprev.
  - destruct at_start; [discriminate | reflexivity].
  - destruct at_start; simpl in Hsnake.
    + apply andb_true_iff in Hsnake as [Hc Hs].
      destruct (lower_facts c Hc) as (Hus & Hsp & Hup & Hback).
      destruct (word_byte_facts c) as (_ & _ & Hsep); [now rewrite Hc|].
      simpl. rewrite Hus. simpl. rewrite Hprev, Hsp. simpl.
      rewrite Hup, Hback. do 2 f_equal.
      exact (IH false c Hs Hsep).
    + destruct (Ascii.eqb c "_") eqn:Eus.
      * apply Ascii.eqb_eq in Eus as ->. simpl. rewrite Hprev. simpl.
        exact (IH true " "%char Hsnake eq_refl).
      * apply andb_true_iff in Hsnake as [Hc Hs].
        destruct (word_byte_facts c Hc) as (Hsp & Hup & Hsep).
        simpl. rewrite Eus. simpl. rewrite Hprev, Hsp. simpl. rewrite Hup.
        f_equal. exact (IH false c Hs Hsep).
Qed.

Lemma HasPrefix_wl_inv (s : string) :
  GoStrings.HasPrefix s "wl_" = true →
  s = String "w" (String "l" (String "_" (GoStrings.TrimPrefix s "wl_"))).
Proof.
  intros H. unfold GoStrings.TrimPrefix. rewrite H.
  destruct s as [|a [|b [|c s]]]; simpl in H; try discriminate.
  - now destruct (Ascii.eqb a "w").
  - now destruct (Ascii.eqb a "w"), (Ascii.eqb b "l").
  - destruct (Ascii.eqb a "w") eqn:Ea; [|discriminate].
    destruct (Ascii.eqb b "l") eqn:Eb; [|discriminate].
    destruct (Ascii.eqb c "_") eqn:Ec; [|discriminate].
    apply Ascii.eqb_eq in Ea as ->, Eb as ->, Ec as ->. reflexivity.
Qed.

(** [CamelCase] read back: the name without its [wl_] prefix. *)
Lemma unwords_CamelCase (s : string) :
  snake_case s = true →
  unwords (CamelCase s)
  = String "_" (if GoStrings.HasPrefix s "wl_"
                then GoStrings.TrimPrefix s "wl_" else s).
Proof.
  intros Hs. unfold CamelCase.
  apply (unwords_CamelCase_steps _ true " "%char); [|reflexivity].
  destruct (GoStrings.HasPrefix s "wl_") eqn:Hp; [|exact Hs].
  rewrite (HasPrefix_wl_inv s Hp) in Hs. exact Hs.
Qed.

(** C7 (as stated, refuted): distinct native names can share a generated
    identifier.  The rule drops the [wl_] prefix, drops every underscore,
    and leaves digits and upper-case letters as they are, so each of these
    pairs collides. *)
Lemma CamelCase_collisions :
  ("wl_foo" ≠ "foo" ∧ CamelCase "wl_foo" = CamelCase "foo")
  ∧ ("foo__bar" ≠ "foo_bar" ∧ CamelCase "foo__bar" = CamelCase "foo_bar")
  ∧ ("a_1" ≠ "a1" ∧ CamelCase "a_1" = CamelCase "a1")
  ∧ ("Foo" ≠ "foo" ∧ CamelCase "Foo" = CamelCase "foo").
Proof. repeat split; (discriminate || reflexivity). Qed.

(** C7 (amended): two distinct native names in strict snake case (words of
    lower-case letters and digits, each word starting with a letter, joined
    by single underscores) that both carry or both lack the [wl_] prefix
    get distinct generated identifiers. *)
Theorem CamelCase_injective_on_snake_case (a b : string) :
  snake_case a = true →
  snake_case b = true →
  GoStrings.HasPrefix a "wl_" = GoStrings.HasPrefix b "wl_" →
  a ≠ b →
  CamelCase a ≠ CamelCase b.
Proof.
  intros Ha Hb Hprefix Hne Heq. apply Hne.
  apply (f_equal unwords) in Heq.
  rewrite (unwords_CamelCase a Ha), (unwords_CamelCase b Hb) in Heq.
  rewrite <- Hprefix in Heq.
  destruct (GoStrings.HasPrefix a "wl_") eqn:Hpa.
  - symmetry in Hprefix.
    rewrite (HasPrefix_wl_inv a Hpa), (HasPrefix_wl_inv b Hprefix).
    injection Heq as ->. reflexivity.
  - now injection Heq.
Qed.

Lemma CamelCase_injective_on_snake_case_witness :
  (snake_case "wl_surface" = true
   ∧ snake_case "wl_shell_surface" = true
   ∧ GoStrings.HasPrefix "wl_surface" "wl_"
     = GoStrings.HasPrefix "wl_shell_surface" "wl_"
   ∧ "wl_surface" ≠ "wl_shell_surface")
  ∧ CamelCase "wl_surface" ≠ CamelCase "wl_shell_surface".
Proof.
  split.
  - repeat split; (reflexivity || discriminate).
  - apply (CamelCase_injective_on_snake_case "wl_surface" "wl_shell_surface");
      (reflexivity || discriminate).
Defined.


(** ** Request signatures *)

(** A loop that only appends to its accumulator collects, in order, what
    each iteration appends. *)
Lemma fold_left_appending {A B : Type} (f : list B → A → list B) :
  (∀ acc x, f acc x = acc ++ f [] x) →
  ∀ l acc, fold_left f l acc = acc ++ flat_map (f []) l.
Proof.
  intros Hf l. induction l as [|x l IH]; intros acc; simpl.
  - now rewrite app_nil_r.
  - rewrite IH, (Hf acc x). now rewrite <- app_assoc.
Qed.

Lemma requestArgs_arg_appends (names : gmap string string)
    (args : list string) (arg : Arg) :
  requestArgs_arg names args arg = args ++ requestArgs_arg names [] arg.
Proof.
  unfold requestArgs_arg.
  repeat match goal with |- context [if ?b then _ else _] => destruct b end;
    rewrite <- ?app_assoc, ?app_nil_r; reflexivity.
Qed.

Lemma requestRets_arg_appends (names : gmap string string)
    (rets : list string) (arg : Arg) :
  requestRets_arg names rets arg = rets ++ requestRets_arg names [] arg.
Proof.
  unfold requestRets_arg.
  destruct (_ && _); rewrite ?app_nil_r; reflexivity.
Qed.

Lemma requestArgs_args_flat_map (names : gmap string string) (req : Request) :
  requestArgs_args names req
  = flat_map (requestArgs_arg names []) (req_Args req).
Proof.
  unfold requestArgs_args.
  now rewrite (fold_left_appending _ (requestArgs_arg_appends names)).
Qed.

Lemma requestRets_rets_flat_map (names : gmap string string) (req : Request) :
  requestRets_rets names req
  = flat_map (requestRets_arg names []) (req_Args req) ++ [" error"].
Proof.
  unfold requestRets_rets.
  now rewrite (fold_left_appending _ (requestRets_arg_appends names)).
Qed.

Lemma known_new_id_no_parameter (names : gmap string string) (arg : Arg) :
  known_new_id arg = true → requestArgs_arg names [] arg = [].
Proof.
  unfold known_new_id, requestArgs_arg.
  intros [-> Hi]%andb_true_iff.
  now apply negb_true_iff in Hi as ->.
Qed.

Lemma primitive_not_interface_typed (arg : Arg) :
  primitive arg = true →
  String.eqb (arg_Type arg) "new_id" = false
  ∧ String.eqb (arg_Type arg) "object" = false.
Proof.
  unfold primitive. intros H%bool_decide_eq_true.
  split; apply String.eqb_neq; intros E; rewrite E in H;
    vm_compute in H; destruct H as [? H]; discriminate.
Qed.

Lemma primitive_one_parameter (names : gmap string string) (arg : Arg) :
  primitive arg = true →
  requestArgs_arg names [] arg
  = [arg_Name arg +:+ " " +:+ index wlTypes (arg_Type arg)]
  ∧ requestRets_arg names [] arg = [].
Proof.
  intros [Hn Ho]%primitive_not_interface_typed.
  unfold requestArgs_arg, requestRets_arg. now rewrite Hn, Ho.
Qed.

Lemma flat_map_without_known_new_ids (names : gmap string string)
    (l : list Arg) :
  flat_map (requestArgs_arg names [])
           (List.filter (fun arg => negb (known_new_id arg)) l)
  = flat_map (requestArgs_arg names []) l.
Proof.
  induction l as [|arg l IH]; simpl; [reflexivity|].
  destruct (known_new_id arg) eqn:Hk; simpl.
  - now rewrite (known_new_id_no_parameter names arg Hk).
  - now rewrite IH.
Qed.

Lemma flat_map_requestRets_arg (names : gmap string string) (l : list Arg) :
  flat_map (requestRets_arg names []) l
  = map (fun arg => "*" +:+ index names (arg_Interface arg))
        (List.filter known_new_id l).
Proof.
  induction l as [|arg l IH]; simpl; [reflexivity|].
  unfold requestRets_arg at 1. fold (known_new_id arg).
  destruct (known_new_id arg); simpl; now rewrite IH.
Qed.

(** C2: a new-id argument with a known interface adds no parameter, so the
    parameters of a request are those of the request without such
    arguments; the returns are one pointer to the interface type per such
    argument, in argument order, and then the error, last.  A request made
    of one known-interface new-id argument and two primitive arguments, in
    any order, has two parameters and two returns. *)
Theorem new_id_elision (names : gmap string string) (req : Request) :
  requestArgs_args names req
  = requestArgs_args names (without_known_new_ids req)
  ∧ requestRets_rets names req
    = map (fun arg => "*" +:+ index names (arg_Interface arg))
          (List.filter known_new_id (req_Args req))
      ++ [" error"]
  ∧ (∀ arg : Arg,
       known_new_id arg = true → requestArgs_arg names [] arg = [])
  ∧ (∀ n p1 p2 : Arg,
       known_new_id n = true → primitive p1 = true → primitive p2 = true →
       req_Args req ≡ₚ [n; p1; p2] →
       length (requestArgs_args names req) = 2
       ∧ length (requestRets_rets names req) = 2).
Proof.
  split; [|split; [|split]].
  - rewrite !requestArgs_args_flat_map. simpl.
    now rewrite flat_map_without_known_new_ids.
  - now rewrite requestRets_rets_flat_map, flat_map_requestRets_arg.
  - apply known_new_id_no_parameter.
  - intros n p1 p2 Hn Hp1 Hp2 Hperm.
    rewrite requestArgs_args_flat_map, requestRets_rets_flat_map.
    rewrite length_app.
    rewrite (Permutation_length
               (Permutation_flat_map (requestArgs_arg names []) Hperm)).
    rewrite (Permutation_length
               (Permutation_flat_map (requestRets_arg names []) Hperm)).
    simpl.
    rewrite (known_new_id_no_parameter names n Hn).
    destruct (primitive_one_parameter names p1 Hp1) as [-> ->].
    destruct (primitive_one_parameter names p2 Hp2) as [-> ->].
    unfold requestRets_arg. fold (known_new_id n). rewrite Hn.
    split; reflexivity.
Qed.

Lemma new_id_elision_witness :
  let req :=
    mk_request "create_thing"
      [ mk_arg "x" "int" ""; mk_arg "id" "new_id" "wl_surface";
        mk_arg "name" "string" "" ] in
  let names : gmap string string := {[ "wl_surface" := "Surface" ]} in
  requestArgs names req = "x int32,name string"
  ∧ requestRets names req = "(" +:+ "*Surface, error)"
  ∧ length (requestArgs_args names req) = 2
  ∧ length (requestRets_rets names req) = 2.
Proof.
  intros req names.
  split; [reflexivity|]. split; [reflexivity|].
  destruct (new_id_elision names req) as (_ & _ & _ & H).
  apply (H (mk_arg "id" "new_id" "wl_surface") (mk_arg "x" "int" "")
           (mk_arg "name" "string" "")); try reflexivity.
  apply perm_swap.
Defined.

(** ** Request bodies *)

Lemma hasRetType_fold (names : gmap string string) (l : list Arg) :
  ∀ init : BodyLocals,
    hasRetType (fold_left (requestBody_arg names) l init)
    = if existsb known_new_id l then "ret," else hasRetType init.
Proof.
  induction l as [|arg l IH]; intros init; simpl; [reflexivity|].
  rewrite IH. unfold requestBody_arg, known_new_id.
  destruct (existsb _ l); [now rewrite orb_true_r|]. rewrite orb_false_r.
  destruct (String.eqb (arg_Type arg) "new_id"); simpl; [|reflexivity].
  destruct (String.eqb (arg_Interface arg) ""); reflexivity.
Qed.

(** C3 (the code departs from the claim): the return statement that
    [requestBody] writes names at most one constructed instance, [ret],
    however many instances the body constructs.  For the request
    [make_pair(first : new_id<wl_a>, second : new_id<wl_b>)] the declared
    returns are a pointer to [A], a pointer to [B] and the error, while the
    body declares [ret] twice,
    passes [Proxy(ret)] for both arguments and returns the single [ret]
    with the result of the dispatch call. *)
Theorem requestBody_returns_one_instance :
  (∀ (names : gmap string string) (req : Request),
     hasRetType (requestBody_locals names req)
     = if existsb known_new_id (req_Args req) then "ret," else "")
  ∧ (let names : gmap string string := {[ "wl_a" := "A"; "wl_b" := "B" ]} in
     let req :=
       mk_request "make_pair"
         [ mk_arg "first" "new_id" "wl_a"; mk_arg "second" "new_id" "wl_b" ] in
     requestRets names req = "(" +:+ "*A,*B, error)"
     ∧ requestBody names req "_FOO_MAKEPAIR"
       = "ret := NewA(p.Connection())" +:+ fmt.nl
         +:+ "ret := NewB(p.Connection())" +:+ fmt.nl
         +:+ "return ret, p.Connection().SendRequest(p,_FOO_MAKEPAIR,Proxy(ret),Proxy(ret))")
  ∧ main (inr two_new_ids_protocol) = Stdout ("package wl
//Interface Request Codes

const (
_FOO_MAKEPAIR = 0
)
type A struct {
BaseProxy
}

func NewA(conn *Connection) *A {
ret := new(A)
conn.Register(ret)
return ret
}

type B struct {
BaseProxy
}

func NewB(conn *Connection) *B {
ret := new(B)
conn.Register(ret)
return ret
}

type Foo struct {
BaseProxy
}

func NewFoo(conn *Connection) *Foo {
ret := new(Foo)
conn.Register(ret)
return ret
}

func (p *Foo) MakePair()(" +:+ "*A,*B, error){
ret := NewA(p.Connection())
ret := NewB(p.Connection())
return ret, p.Connection().SendRequest(p,_FOO_MAKEPAIR,Proxy(ret),Proxy(ret))
}
").
Proof.
  split; [|split; [split|]].
  - intros names req. unfold requestBody_locals. now rewrite hasRetType_fold.
  - vm_compute. reflexivity.
  - vm_compute. reflexivity.
  - vm_compute. reflexivity.
Qed.

(** ** Argument types *)

(** C6 (the code departs from the claim): an object argument with no known
    interface gets the type [Proxy] as an event field, and so does a new-id
    argument with no known interface as a parameter, but as a parameter the
    object argument falls to the branch of the primitive kinds, where the
    table has no entry for [object]: its type is written empty. *)
Theorem anonymous_object_parameter_has_no_type :
  (∀ (names : gmap string string) (args : list string)
     (name enum summary : string) (allowNull : bool),
     let arg :=
       {| arg_Name := name; arg_Type := "object"; arg_Interface := "";
          arg_Enum := enum; arg_AllowNull := allowNull;
          arg_Summary := summary |} in
     requestArgs_arg names args arg = args ++ [name +:+ " "]
     ∧ event_field names arg = CamelCase name +:+ " Proxy" +:+ fmt.nl)
  ∧ (∀ (names : gmap string string) (args : list string)
       (name enum summary : string) (allowNull : bool),
       requestArgs_arg names args
         {| arg_Name := name; arg_Type := "new_id"; arg_Interface := "";
            arg_Enum := enum; arg_AllowNull := allowNull;
            arg_Summary := summary |}
       = args ++ ["iface string"; "version uint32"; name +:+ " Proxy"])
  ∧ main (inr anonymous_object_protocol) = Stdout "package wl
//Interface Request Codes

const (
_FOO_BAR = 0
)
type FooEvEvent struct {
X Proxy
}

type Foo struct {
BaseProxy
EvChan chan FooEvEvent
}

func NewFoo(conn *Connection) *Foo {
ret := new(Foo)
ret.EvChan = make(chan FooEvEvent)
conn.Register(ret)
return ret
}

func (p *Foo) Bar(x ) error{
return  p.Connection().SendRequest(p,_FOO_BAR,x)
}
".
Proof.
  split; [|split].
  - intros names args name enum summary allowNull arg. split.
    + unfold requestArgs_arg. simpl. reflexivity.
    + reflexivity.
  - intros names args name enum summary allowNull.
    unfold requestArgs_arg. simpl. now rewrite <- !app_assoc.
  - vm_compute. reflexivity.
Qed.

(** ** Lookups that find nothing *)

(** After the description is decoded nothing can stop [main]: it prints. *)
Lemma main_prints (protocol : Protocol) :
  ∃ text : string, main (inr protocol) = Stdout text.
Proof. eexists. reflexivity. Qed.

Lemma index_missing (m : gmap string string) (k : string) :
  m !! k = None → index m k = "".
Proof. unfold index. now intros ->. Qed.

(** C4 (as stated, refuted): [wl_missing] is in no registry entry when the
    run ends, three arguments name it, and the run does not end with a
    fatal error: it prints, with a bare pointer marker where the type of
    each of these arguments belongs. *)
Lemma unregistered_interface_is_not_fatal :
  wlNames (generate unregistered_protocol) !! "wl_missing" = None
  ∧ (∀ err : string, main (inr unregistered_protocol) ≠ Fatal err)
  ∧ main (inr unregistered_protocol) = Stdout ("package wl
//Interface Request Codes

const (
_FOO_BAR = 0
_FOO_BAZ = 1
)
type FooEvEvent struct {
Y *
}

type Foo struct {
BaseProxy
EvChan chan FooEvEvent
}

func NewFoo(conn *Connection) *Foo {
ret := new(Foo)
ret.EvChan = make(chan FooEvEvent)
conn.Register(ret)
return ret
}

func (p *Foo) Bar(x *" +:+ ") error{
return  p.Connection().SendRequest(p,_FOO_BAR,x)
}

func (p *Foo) Baz()(" +:+ "*, error){
ret := New(p.Connection())
return ret, p.Connection().SendRequest(p,_FOO_BAZ,Proxy(ret))
}
").
Proof.
  split; [|split].
  - vm_compute. reflexivity.
  - intros err. discriminate.
  - vm_compute. reflexivity.
Qed.

(** C4 (amended): for an object or new-id argument whose interface name is
    not empty and is absent from the registry the generator does not fail.
    Once the description is decoded [main] always prints; the lookup of the
    name gives the empty identifier, so the object argument is the
    parameter [name *], the new-id argument adds no parameter and returns
    [*], and either one is the event field [Name *]. *)
Theorem unregistered_interface_is_empty_identifier
    (names : gmap string string) (arg : Arg) (args rets : list string) :
  names !! arg_Interface arg = None →
  arg_Interface arg ≠ "" →
  (∀ protocol : Protocol, ∃ text : string, main (inr protocol) = Stdout text)
  ∧ index names (arg_Interface arg) = ""
  ∧ (arg_Type arg = "object" →
       requestArgs_arg names args arg = args ++ [arg_Name arg +:+ " *"]
       ∧ requestRets_arg names rets arg = rets
       ∧ event_field names arg = CamelCase (arg_Name arg) +:+ " *" +:+ fmt.nl)
  ∧ (arg_Type arg = "new_id" →
       requestArgs_arg names args arg = args
       ∧ requestRets_arg names rets arg = rets ++ ["*"]
       ∧ event_field names arg = CamelCase (arg_Name arg) +:+ " *" +:+ fmt.nl).
Proof.
  intros Hmissing Hnonempty.
  apply String.eqb_neq in Hnonempty.
  pose proof (index_missing _ _ Hmissing) as Hindex.
  split; [exact main_prints|]. split; [exact Hindex|].
  unfold requestArgs_arg, requestRets_arg, event_field.
  rewrite Hindex, Hnonempty.
  split; intros ->; repeat split; reflexivity.
Qed.

Lemma unregistered_interface_is_empty_identifier_witness :
  let names : gmap string string := {[ "wl_foo" := "Foo" ]} in
  let arg := mk_arg "x" "object" "wl_missing" in
  (names !! arg_Interface arg = None ∧ arg_Interface arg ≠ "")
  ∧ requestArgs_arg names ["a int32"] arg = ["a int32"; "x *"]
  ∧ event_field names arg = "X *" +:+ fmt.nl.
Proof.
  intros names arg.
  assert (Hmissing : names !! arg_Interface arg = None) by reflexivity.
  assert (Hnonempty : arg_Interface arg ≠ "") by discriminate.
  split; [split; assumption|].
  destruct (unregistered_interface_is_empty_identifier
              names arg ["a int32"] [] Hmissing Hnonempty)
    as (_ & _ & Hobject & _).
  destruct (Hobject eq_refl) as (Hargs & _ & Hfield).
  split; [exact Hargs | exact Hfield].
Defined.

(** The table [wlTypes] has the six primitive kinds and nothing else. *)
Lemma wlTypes_entries (kind type : string) :
  wlTypes !! kind = Some type
  ↔ (kind, type)
      ∈ [ ("int", "int32"); ("uint", "uint32"); ("string", "string");
          ("fd", "uintptr"); ("fixed", "float32"); ("array", "[]int32") ].
Proof.
  unfold wlTypes. symmetry. apply elem_of_list_to_map.
  apply (bool_decide_unpack _). vm_compute. exact I.
Qed.

(** C5 (as stated, refuted): [double] is not a kind of the table and is
    not an interface-typed kind, and the run does not end with a fatal
    error: it prints, the event field typed [Proxy] and the parameter with
    no type at all. *)
Lemma unknown_kind_is_not_fatal :
  wlTypes !! "double" = None
  ∧ (∀ err : string, main (inr unknown_kind_protocol) ≠ Fatal err)
  ∧ main (inr unknown_kind_protocol) = Stdout "package wl
//Interface Request Codes

const (
_FOO_BAR = 0
)
type FooEvEvent struct {
Y Proxy
}

type Foo struct {
BaseProxy
EvChan chan FooEvEvent
}

func NewFoo(conn *Connection) *Foo {
ret := new(Foo)
ret.EvChan = make(chan FooEvEvent)
conn.Register(ret)
return ret
}

func (p *Foo) Bar(x ) error{
return  p.Connection().SendRequest(p,_FOO_BAR,x)
}
".
Proof.
  split; [|split].
  - vm_compute. reflexivity.
  - intros err. discriminate.
  - vm_compute. reflexivity.
Qed.

(** C5 (amended): the table of primitive kinds has exactly six entries
    ([int], [uint], [string], [fd], [fixed], [array]), each with one target
    type; for an argument whose kind is not in the table and is not an
    interface-typed kind the generator does not fail: once the description
    is decoded [main] always prints, and as an event field the argument is
    typed [Proxy]. *)
Theorem primitive_kinds_table (names : gmap string string) (arg : Arg) :
  (∀ kind type : string,
     wlTypes !! kind = Some type
     ↔ (kind, type)
         ∈ [ ("int", "int32"); ("uint", "uint32"); ("string", "string");
             ("fd", "uintptr"); ("fixed", "float32"); ("array", "[]int32") ])
  ∧ (∀ protocol : Protocol, ∃ text : string, main (inr protocol) = Stdout text)
  ∧ (wlTypes !! arg_Type arg = None →
     arg_Type arg ≠ "object" →
     arg_Type arg ≠ "new_id" →
     event_field names arg = CamelCase (arg_Name arg) +:+ " Proxy" +:+ fmt.nl).
Proof.
  split; [exact wlTypes_entries|]. split; [exact main_prints|].
  intros Hkind Hobject%String.eqb_neq Hnew%String.eqb_neq.
  unfold event_field. now rewrite Hkind, Hobject, Hnew.
Qed.

Lemma primitive_kinds_table_witness :
  let arg := mk_arg "y" "double" "" in
  (wlTypes !! arg_Type arg = None
   ∧ arg_Type arg ≠ "object" ∧ arg_Type arg ≠ "new_id")
  ∧ event_field ∅ arg = "Y Proxy" +:+ fmt.nl.
Proof.
  intros arg.
  assert (Hkind : wlTypes !! arg_Type arg = None) by reflexivity.
  assert (Hobject : arg_Type arg ≠ "object") by discriminate.
  assert (Hnew : arg_Type arg ≠ "new_id") by discriminate.
  split; [repeat split; assumption|].
  destruct (primitive_kinds_table ∅ arg) as (_ & _ & Hfield).
  exact (Hfield Hkind Hobject Hnew).
Defined.

(** ** The emitter, loop by loop *)

Lemma flatten_app (a b : list string) :
  flatten (a ++ b) = flatten a +:+ flatten b.
Proof.
  induction a as [|x a IH]; simpl; [reflexivity|].
  now rewrite IH, append_assoc.
Qed.

Lemma quiet_refl (g : Globals) : quiet g g.
Proof. repeat split; auto. Qed.

Lemma quiet_trans (g1 g2 g3 : Globals) :
  quiet g1 g2 → quiet g2 g3 → quiet g1 g3.
Proof.
  intros (Hr1 & Hi1 & Hn1) (Hr2 & Hi2 & Hn2). repeat split.
  - now rewrite Hr2. 
  - now rewrite Hi2.
  - auto.
Qed.

Lemma quiet_fold_left {A : Type} (f : Globals → A → Globals) (l : list A) :
  (∀ g x, quiet g (f g x)) → ∀ g, quiet g (fold_left f l g).
Proof.
  intros Hf. induction l as [|x l IH]; intros g; simpl.
  - apply quiet_refl.
  - eapply quiet_trans; [apply Hf | apply IH].
Qed.

Lemma quiet_registerAndCase (wlName : string) (g : Globals) :
  quiet g (snd (registerAndCase wlName g)).
Proof.
  repeat split. simpl. intros k Hk.
  destruct (decide (wlName = k)) as [->|Hne].
  - apply lookup_insert_eq.
  - now rewrite lookup_insert_ne.
Qed.

Lemma quiet_constBuffer_WriteString (s : string) (g : Globals) :
  quiet g (constBuffer_WriteString s g).
Proof. repeat split; auto. Qed.

Lemma quiet_entry_iter (ifaceName enumName constTypeName : string)
    (g : Globals) (entry : Entry) :
  quiet g (entry_iter ifaceName enumName constTypeName g entry).
Proof.
  unfold entry_iter.
  pose proof (quiet_registerAndCase (entry_Name entry) g) as H.
  destruct (registerAndCase (entry_Name entry) g) as [entryName g1].
  eapply quiet_trans; [exact H | apply quiet_constBuffer_WriteString].
Qed.

Lemma quiet_enum_iter (ifaceName : string) (g : Globals) (enum : Enum) :
  quiet g (enum_iter ifaceName g enum).
Proof.
  unfold enum_iter.
  pose proof (quiet_registerAndCase (enum_Name enum) g) as H.
  destruct (registerAndCase (enum_Name enum) g) as [enumName g1].
  eapply quiet_trans; [exact H|].
  eapply quiet_trans; [|apply quiet_constBuffer_WriteString].
  eapply quiet_trans; [|apply quiet_fold_left; intros; apply quiet_entry_iter].
  eapply quiet_trans; apply quiet_constBuffer_WriteString.
Qed.

(** The loop over the events registers names and collects, in order, the
    generated identifier of every event. *)
Lemma event_loop_spec (ifaceName : string) (events : list Event) :
  ∀ (g : Globals) (l : EventLocals),
    quiet g (fst (fold_left (event_iter ifaceName) events (g, l)))
    ∧ eventNames (snd (fold_left (event_iter ifaceName) events (g, l)))
      = eventNames l
        ++ map (fun event => CamelCase (event_Name event)) events.
Proof.
  induction events as [|event events IH]; intros g l.
  - simpl. split; [apply quiet_refl | now rewrite app_nil_r].
  - change (fold_left (event_iter ifaceName) (event :: events) (g, l))
      with (fold_left (event_iter ifaceName) events
              (event_iter ifaceName (g, l) event)).
    assert (Hstep :
      quiet g (fst (event_iter ifaceName (g, l) event))
      ∧ eventNames (snd (event_iter ifaceName (g, l) event))
        = eventNames l ++ [CamelCase (event_Name event)]).
    { split; [apply quiet_registerAndCase | reflexivity]. }
    destruct (event_iter ifaceName (g, l) event) as [g1 l1].
    destruct Hstep as [Hq Hn]. destruct (IH g1 l1) as [IHq IHn].
    simpl in Hq, Hn. split.
    + eapply quiet_trans; [exact Hq | exact IHq].
    + rewrite IHn, Hn. simpl. now rewrite <- app_assoc.
Qed.

(** A loop that writes one text per element to the interface buffer
    writes, all in all, the texts one after the other. *)
Lemma ifaceBuffer_fold_WriteString {A : Type} (f : A → string) (l : list A) :
  ∀ g : Globals,
    fold_left (fun g x => ifaceBuffer_WriteString (f x) g) l g
    = ifaceBuffer_WriteString (flatten (map f l)) g.
Proof.
  induction l as [|x l IH]; intros g; simpl.
  - destruct g. unfold ifaceBuffer_WriteString. simpl.
    now rewrite append_nil_r.
  - rewrite IH. unfold ifaceBuffer_WriteString. simpl.
    now rewrite append_assoc.
Qed.

Lemma request_iter_spec (ifaceName : string) (order : nat) (req : Request)
    (g : Globals) :
  wlNames (request_iter ifaceName order req g) = wlNames g
  ∧ reqCodesBuffer (request_iter ifaceName order req g)
    = reqCodesBuffer g
      +:+ (reqCodeName_of ifaceName (CamelCase (req_Name req))
             +:+ " = " +:+ fmt.d order +:+ fmt.nl)
  ∧ ∃ method : string,
      ifaceBuffer (request_iter ifaceName order req g)
      = ifaceBuffer g +:+ method.
Proof.
  split; [reflexivity|]. split; [reflexivity|].
  unfold request_iter. cbn. eexists. rewrite !append_assoc. reflexivity.
Qed.

(** The loop over the requests: the name table is left alone, the
    request-code buffer gets one line per request, numbered from [order]
    on, and the interface buffer only grows. *)
Lemma requests_loop_spec (ifaceName : string) (reqs : list Request) :
  ∀ (order : nat) (g : Globals),
    wlNames (requests_loop ifaceName order reqs g) = wlNames g
    ∧ reqCodesBuffer (requests_loop ifaceName order reqs g)
      = reqCodesBuffer g
        +:+ flatten
              (imap (fun k req =>
                       reqCodeName_of ifaceName (CamelCase (req_Name req))
                         +:+ " = " +:+ fmt.d (order + k) +:+ fmt.nl)
                    reqs)
    ∧ ∃ methods : string,
        ifaceBuffer (requests_loop ifaceName order reqs g)
        = ifaceBuffer g +:+ methods.
Proof.
  induction reqs as [|req reqs IH]; intros order g.
  - simpl. rewrite append_nil_r. repeat split.
    exists "". now rewrite append_nil_r.
  - cbn [requests_loop].
    destruct (IH (S order) (request_iter ifaceName order req g))
      as (IHn & IHc & methods & IHi).
    destruct (request_iter_spec ifaceName order req g)
      as (Hn & Hc & method & Hi).
    rewrite IHn, IHc, IHi, Hn, Hc, Hi. split; [reflexivity|]. split.
    + cbn [imap flatten foldr]. rewrite Nat.add_0_r, !append_assoc.
      rewrite (imap_ext
                 (fun k req =>
                    reqCodeName_of ifaceName (CamelCase (req_Name req))
                      +:+ " = " +:+ fmt.d (S order + k) +:+ fmt.nl)
                 ((fun k req =>
                     reqCodeName_of ifaceName (CamelCase (req_Name req))
                       +:+ " = " +:+ fmt.d (order + k) +:+ fmt.nl) ∘ S)
                 reqs); [reflexivity|].
      intros k req' _. simpl. now rewrite Nat.add_succ_r.
    + eexists. rewrite !append_assoc. reflexivity.
Qed.

(** One interface: names stay registered, the request-code buffer gets the
    lines of the requests numbered from 0, and the interface buffer gets
    the event types, the interface type with one channel field per event,
    the constructor with one [make] per event, and the methods. *)
Lemma interface_iter_spec (g : Globals) (iface : Interface) :
  let ifaceName := index (wlNames g) (iface_Name iface) in
  (∀ k : string,
     wlNames g !! k = Some (CamelCase k) →
     wlNames (interface_iter g iface) !! k = Some (CamelCase k))
  ∧ reqCodesBuffer (interface_iter g iface)
    = reqCodesBuffer g
      +:+ flatten
            (imap (fun k req =>
                     reqCodeName_of ifaceName (CamelCase (req_Name req))
                       +:+ " = " +:+ fmt.d k +:+ fmt.nl)
                  (iface_Requests iface))
  ∧ ∃ events methods : string,
      ifaceBuffer (interface_iter g iface)
      = ifaceBuffer g
        +:+ events
        +:+ interface_type_text ifaceName
              (map (chan_field ifaceName) (event_identifiers iface))
        +:+ constructor_text ifaceName
              (map (chan_make ifaceName) (event_identifiers iface))
        +:+ methods.
Proof.
  intros ifaceName. unfold interface_iter. fold ifaceName.
  destruct (event_loop_spec ifaceName (iface_Events iface) g
              {| eventBuffer := ""; eventNames := [] |}) as [Hq Hnames].
  destruct (fold_left (event_iter ifaceName) (iface_Events iface) _)
    as [g1 ev].
  simpl in Hq, Hnames. destruct Hq as (Hcodes1 & Hiface1 & Hreg1).
  fold (event_identifiers iface) in Hnames.
  rewrite !ifaceBuffer_fold_WriteString, Hnames.
  match goal with
  | |- context [requests_loop ifaceName 0 (iface_Requests iface) ?G] =>
      remember G as before eqn:Hbefore
  end.
  assert (Hbn : wlNames before = wlNames g1) by now subst before.
  assert (Hbc : reqCodesBuffer before = reqCodesBuffer g) by now subst before.
  assert (Hbi :
    ifaceBuffer before
    = ifaceBuffer g
      +:+ eventBuffer ev
      +:+ interface_type_text ifaceName
            (map (chan_field ifaceName) (event_identifiers iface))
      +:+ constructor_text ifaceName
            (map (chan_make ifaceName) (event_identifiers iface))).
  { subst before. unfold ifaceBuffer_WriteString. cbn [ifaceBuffer].
    rewrite Hiface1. unfold interface_type_text, constructor_text.
    rewrite !append_assoc. reflexivity. }
  clear Hbefore.
  destruct (requests_loop_spec ifaceName (iface_Requests iface) 0 before)
    as (Hn & Hc & methods & Hi).
  destruct (quiet_fold_left (enum_iter ifaceName) (iface_Enums iface)
              (quiet_enum_iter ifaceName)
              (requests_loop ifaceName 0 (iface_Requests iface) before))
    as (Hcodes2 & Hiface2 & Hreg2).
  split; [|split].
  - intros k Hk. apply Hreg2. rewrite Hn, Hbn. auto.
  - now rewrite Hcodes2, Hc, Hbc.
  - exists (eventBuffer ev), methods.
    rewrite Hiface2, Hi, Hbi. rewrite !append_assoc. reflexivity.
Qed.

(** The first loop of [main] registers every interface name. *)
Lemma register_interfaces_spec (ifaces : list Interface) :
  ∀ g : Globals,
    quiet g
      (fold_left (fun g iface => snd (registerAndCase (iface_Name iface) g))
                 ifaces g)
    ∧ constBuffer
        (fold_left (fun g iface => snd (registerAndCase (iface_Name iface) g))
                   ifaces g)
      = constBuffer g
    ∧ ∀ iface : Interface,
        iface ∈ ifaces →
        wlNames
          (fold_left
             (fun g iface => snd (registerAndCase (iface_Name iface) g))
             ifaces g)
          !! iface_Name iface
        = Some (CamelCase (iface_Name iface)).
Proof.
  induction ifaces as [|iface ifaces IH]; intros g.
  - split; [apply quiet_refl|]. split; [reflexivity|].
    intros iface Hin. inversion Hin.
  - cbn [fold_left].
    destruct (IH (snd (registerAndCase (iface_Name iface) g)))
      as (Hq & Hconst & Hin).
    split; [|split].
    + eapply quiet_trans; [apply quiet_registerAndCase | exact Hq].
    + rewrite Hconst. reflexivity.
    + intros iface' [->|Hin']%elem_of_cons; [|now apply Hin].
      destruct Hq as (_ & _ & Hreg). apply Hreg. simpl.
      apply lookup_insert_eq.
Qed.

Lemma index_registered (m : gmap string string) (k : string) :
  m !! k = Some (CamelCase k) → index m k = CamelCase k.
Proof. unfold index. now intros ->. Qed.

(** The second loop of [main], on the request-code buffer. *)
Lemma interfaces_loop_reqCodes (ifaces : list Interface) :
  ∀ g : Globals,
    (∀ iface : Interface,
       iface ∈ ifaces →
       wlNames g !! iface_Name iface = Some (CamelCase (iface_Name iface))) →
    reqCodesBuffer (fold_left interface_iter ifaces g)
    = reqCodesBuffer g +:+ flatten (flat_map request_code_lines ifaces).
Proof.
  induction ifaces as [|iface ifaces IH]; intros g Hreg; simpl.
  - now rewrite append_nil_r.
  - destruct (interface_iter_spec g iface) as (Hkeep & Hcodes & _).
    rewrite IH.
    + rewrite Hcodes, flatten_app, append_assoc.
      rewrite (index_registered _ _ (Hreg iface (list_elem_of_here _ _))).
      reflexivity.
    + intros iface' Hin. apply Hkeep, Hreg. now apply list_elem_of_further.
Qed.

(** The second loop of [main], on the interface buffer: it only grows. *)
Lemma interfaces_loop_ifaceBuffer_grows (ifaces : list Interface) :
  ∀ g : Globals,
    ∃ text : string,
      ifaceBuffer (fold_left interface_iter ifaces g)
      = ifaceBuffer g +:+ text.
Proof.
  induction ifaces as [|iface ifaces IH]; intros g; simpl.
  - exists "". now rewrite append_nil_r.
  - destruct (IH (interface_iter g iface)) as [text Htext].
    destruct (interface_iter_spec g iface)
      as (_ & _ & events & methods & Hiface).
    rewrite Htext, Hiface. eexists. rewrite !append_assoc. reflexivity.
Qed.

Lemma interfaces_loop_keeps_registered (ifaces : list Interface) :
  ∀ (g : Globals) (k : string),
    wlNames g !! k = Some (CamelCase k) →
    wlNames (fold_left interface_iter ifaces g) !! k = Some (CamelCase k).
Proof.
  induction ifaces as [|iface ifaces IH]; intros g k Hk; simpl; [exact Hk|].
  apply IH. now apply (interface_iter_spec g iface).
Qed.

(** ** The whole run *)

(** Distinct positions are written as distinct numerals. *)
Lemma fmt_d_inj (m n : nat) : fmt.d m = fmt.d n → m = n.
Proof.
  assert (Hnonnil : ∀ k : nat, Nat.to_uint k ≠ Decimal.Nil).
  { intros k. pose proof (DecimalNat.Unsigned.to_of (Nat.to_uint k)) as H.
    rewrite DecimalNat.Unsigned.of_to in H. rewrite H.
    apply DecimalFacts.unorm_nonnil. }
  unfold fmt.d. intros Heq.
  apply (f_equal NilZero.uint_of_string) in Heq.
  rewrite !NilZero.usu in Heq by apply Hnonnil.
  injection Heq as Heq. now apply DecimalNat.Unsigned.to_uint_inj.
Qed.

(** The state in which the second loop of [main] starts. *)
Lemma before_interfaces_loop (protocol : Protocol) :
  ∃ g : Globals,
    generate protocol
    = reqCodesBuffer_WriteString ")"
        (fold_left interface_iter (proto_Interfaces protocol) g)
    ∧ constBuffer g = "package wl"
    ∧ reqCodesBuffer g
      = (fmt.nl +:+ "//Interface Request Codes" +:+ fmt.nl)
        +:+ (fmt.nl +:+ "const (" +:+ fmt.nl)
    ∧ ifaceBuffer g = ""
    ∧ ∀ iface : Interface,
        iface ∈ proto_Interfaces protocol →
        wlNames g !! iface_Name iface = Some (CamelCase (iface_Name iface)).
Proof.
  unfold generate.
  match goal with
  | |- context [fold_left interface_iter _ ?g0] => exists g0
  end.
  split; [reflexivity|].
  match goal with
  | |- context [fold_left ?f (proto_Interfaces protocol) ?g0] =>
      destruct (register_interfaces_spec (proto_Interfaces protocol) g0)
        as ((Hcodes & Hiface & _) & Hconst & Hreg)
  end.
  unfold reqCodesBuffer_WriteString.
  cbn [constBuffer reqCodesBuffer ifaceBuffer wlNames].
  rewrite Hconst, Hcodes, Hiface. repeat split; try reflexivity.
  exact Hreg.
Qed.

Lemma reqCodesBuffer_generate (protocol : Protocol) :
  reqCodesBuffer (generate protocol)
  = (fmt.nl +:+ "//Interface Request Codes" +:+ fmt.nl)
    +:+ (fmt.nl +:+ "const (" +:+ fmt.nl)
    +:+ flatten (flat_map request_code_lines (proto_Interfaces protocol))
    +:+ ")".
Proof.
  destruct (before_interfaces_loop protocol)
    as (g & -> & _ & Hcodes & _ & Hreg).
  cbn [reqCodesBuffer_WriteString reqCodesBuffer].
  rewrite (interfaces_loop_reqCodes _ g Hreg), Hcodes.
  rewrite !append_assoc. reflexivity.
Qed.

(** C1: the request-code block is its two header lines, then, interface by
    interface and request by request in document order, one line per
    request that gives the request-code constant the position of the
    request among the requests of its interface, counted from 0, then the
    closing parenthesis.  For the requests [a, b, c] the codes are 0, 1 and
    2; with a request put between [b] and [c], [c] gets 3. *)
Theorem request_codes_are_positions :
  (∀ protocol : Protocol,
     reqCodesBuffer (generate protocol)
     = (fmt.nl +:+ "//Interface Request Codes" +:+ fmt.nl)
       +:+ (fmt.nl +:+ "const (" +:+ fmt.nl)
       +:+ flatten (flat_map request_code_lines (proto_Interfaces protocol))
       +:+ ")")
  ∧ (∀ iface : Interface,
       length (request_code_lines iface) = length (iface_Requests iface))
  ∧ (∀ (iface : Interface) (order : nat) (req : Request),
       iface_Requests iface !! order = Some req →
       request_code_lines iface !! order
       = Some (GoStrings.ToTitle
                 ("_" +:+ CamelCase (iface_Name iface)
                      +:+ "_" +:+ CamelCase (req_Name req))
               +:+ " = " +:+ fmt.d order +:+ fmt.nl))
  ∧ (∀ m n : nat, fmt.d m = fmt.d n → m = n)
  ∧ reqCodesBuffer (generate abc_protocol)
    = fmt.nl +:+ "//Interface Request Codes" +:+ fmt.nl
      +:+ fmt.nl +:+ "const (" +:+ fmt.nl
      +:+ "_FOO_A = 0" +:+ fmt.nl
      +:+ "_FOO_B = 1" +:+ fmt.nl
      +:+ "_FOO_C = 2" +:+ fmt.nl
      +:+ ")"
  ∧ reqCodesBuffer (generate ab_new_c_protocol)
    = fmt.nl +:+ "//Interface Request Codes" +:+ fmt.nl
      +:+ fmt.nl +:+ "const (" +:+ fmt.nl
      +:+ "_FOO_A = 0" +:+ fmt.nl
      +:+ "_FOO_B = 1" +:+ fmt.nl
      +:+ "_FOO_NEWREQUEST = 2" +:+ fmt.nl
      +:+ "_FOO_C = 3" +:+ fmt.nl
      +:+ ")".
Proof.
  split; [|split; [|split; [|split; [|split]]]].
  - exact reqCodesBuffer_generate.
  - intros iface. unfold request_code_lines. apply length_imap.
  - intros iface order req Hreq. unfold request_code_lines.
    rewrite list_lookup_imap, Hreq. reflexivity.
  - exact fmt_d_inj.
  - vm_compute. reflexivity.
  - vm_compute. reflexivity.
Qed.

Lemma request_codes_are_positions_witness :
  let iface :=
    mk_interface "wl_foo"
      [ mk_request "a" []; mk_request "b" []; mk_request "c" [] ] [] [] in
  iface_Requests iface !! 2 = Some (mk_request "c" [])
  ∧ request_code_lines iface !! 2 = Some ("_FOO_C = 2" +:+ fmt.nl).
Proof.
  intros iface.
  assert (Hreq : iface_Requests iface !! 2 = Some (mk_request "c" []))
    by reflexivity.
  split; [exact Hreq|].
  destruct request_codes_are_positions as (_ & _ & Hline & _).
  exact (Hline iface 2 (mk_request "c" []) Hreq).
Defined.

(** ** The constants buffer only grows *)







Lemma event_loop_constBuffer (ifaceName : string) (events : list Event) :
  ∀ (g : Globals) (l : EventLocals),
    constBuffer (fst (fold_left (event_iter ifaceName) events (g, l)))
    = constBuffer g.
Proof.
  induction events as [|event events IH]; intros g l; [reflexivity|].
  change (fold_left (event_iter ifaceName) (event :: events) (g, l))
    with (fold_left (event_iter ifaceName) events
            (event_iter ifaceName (g, l) event)).
  assert (Hstep :
    constBuffer (fst (event_iter ifaceName (g, l) event)) = constBuffer g)
    by reflexivity.
  destruct (event_iter ifaceName (g, l) event) as [g1 l1].
  now rewrite IH.
Qed.

Lemma requests_loop_constBuffer (ifaceName : string) (reqs : list Request) :
  ∀ (order : nat) (g : Globals),
    constBuffer (requests_loop ifaceName order reqs g) = constBuffer g.
Proof.
  induction reqs as [|req reqs IH]; intros order g; [reflexivity|].
  cbn [requests_loop]. now rewrite IH.
Qed.



(** ** Interface types and constructors *)

(** C9: for every interface of the protocol, with N events, the interface
    buffer holds the definition of the interface type with exactly N
    channel fields, one per event in document order, and right after it the
    constructor, which allocates the instance, makes the channel of every
    one of these N fields, registers the instance with the connection it
    was given and returns it. *)
Theorem event_channels_complete (protocol : Protocol) (iface : Interface) :
  iface ∈ proto_Interfaces protocol →
  let ifaceName := CamelCase (iface_Name iface) in
  let fields := map (chan_field ifaceName) (event_identifiers iface) in
  let makes := map (chan_make ifaceName) (event_identifiers iface) in
  length fields = length (iface_Events iface)
  ∧ length makes = length (iface_Events iface)
  ∧ (∀ (i : nat) (event : Event),
       iface_Events iface !! i = Some event →
       fields !! i
       = Some (CamelCase (event_Name event) +:+ "Chan chan "
                 +:+ ifaceName +:+ CamelCase (event_Name event) +:+ "Event"
                 +:+ fmt.nl)
       ∧ makes !! i
         = Some ("ret." +:+ CamelCase (event_Name event) +:+ "Chan = make(chan "
                   +:+ ifaceName +:+ CamelCase (event_Name event) +:+ "Event"
                   +:+ ")" +:+ fmt.nl))
  ∧ ∃ before after : string,
      ifaceBuffer (generate protocol)
      = before
        +:+ (fmt.nl +:+ "type " +:+ ifaceName +:+ " struct {" +:+ fmt.nl
               +:+ "BaseProxy" +:+ fmt.nl
               +:+ flatten fields
               +:+ "}" +:+ fmt.nl)
        +:+ (fmt.nl +:+ "func New" +:+ ifaceName +:+ "(conn *Connection) *"
               +:+ ifaceName +:+ " {" +:+ fmt.nl
               +:+ "ret := new(" +:+ ifaceName +:+ ")" +:+ fmt.nl
               +:+ flatten makes
               +:+ "conn.Register(ret)" +:+ fmt.nl
               +:+ "return ret" +:+ fmt.nl
               +:+ "}" +:+ fmt.nl)
        +:+ after.
Proof.
  intros Hin ifaceName fields makes.
  split; [|split; [|split]].
  - subst fields. unfold event_identifiers. now rewrite !length_map.
  - subst makes. unfold event_identifiers. now rewrite !length_map.
  - intros i event Hevent. subst fields makes. unfold event_identifiers.
    rewrite !list_lookup_fmap, Hevent. simpl.
    unfold chan_field, chan_make. rewrite !append_assoc. split; reflexivity.
  - destruct (before_interfaces_loop protocol)
      as (g & -> & _ & _ & Hiface & Hreg).
    cbn [reqCodesBuffer_WriteString ifaceBuffer].
    destruct (list_elem_of_split _ _ Hin) as (l1 & l2 & Hsplit).
    rewrite Hsplit, fold_left_app. cbn [fold_left].
    set (g1 := fold_left interface_iter l1 g).
    assert (Hname : index (wlNames g1) (iface_Name iface) = ifaceName).
    { apply index_registered. subst g1.
      apply interfaces_loop_keeps_registered, Hreg, Hin. }
    destruct (interface_iter_spec g1 iface)
      as (_ & _ & events & methods & Htext).
    rewrite Hname in Htext. fold fields makes in Htext.
    destruct (interfaces_loop_ifaceBuffer_grows l2 (interface_iter g1 iface))
      as [rest Hrest].
    exists (ifaceBuffer g1 +:+ events), (methods +:+ rest).
    rewrite Hrest, Htext. unfold interface_type_text, constructor_text.
    rewrite !append_assoc. reflexivity.
Qed.

Lemma event_channels_complete_witness :
  let iface :=
    mk_interface "foo_bar"
      [ mk_request "do_thing" [ mk_arg "count" "int" "" ] ]
      [ mk_event "happened" [] ] [] in
  iface ∈ proto_Interfaces foo_bar_protocol
  ∧ length (map (chan_field "FooBar") (event_identifiers iface)) = 1
  ∧ map (chan_make "FooBar") (event_identifiers iface)
    = [ "ret.HappenedChan = make(chan FooBarHappenedEvent)" +:+ fmt.nl ].
Proof.
  intros iface.
  assert (Hin : iface ∈ proto_Interfaces foo_bar_protocol)
    by apply list_elem_of_here.
  split; [exact Hin|].
  destruct (event_channels_complete foo_bar_protocol iface Hin)
    as (Hfields & _).
  split; [exact Hfields | reflexivity].
Defined.

(** ** Determinism *)



(** The end-to-end scenario: the whole text printed for the protocol with
    the one interface [foo_bar]. *)
Example main_foo_bar :
  main (inr foo_bar_protocol) = Stdout "package wl
//Interface Request Codes

const (
_FOOBAR_DOTHING = 0
)
type FooBarHappenedEvent struct {
}

type FooBar struct {
BaseProxy
HappenedChan chan FooBarHappenedEvent
}

func NewFooBar(conn *Connection) *FooBar {
ret := new(FooBar)
ret.HappenedChan = make(chan FooBarHappenedEvent)
conn.Register(ret)
return ret
}

func (p *FooBar) DoThing(count int32) error{
return  p.Connection().SendRequest(p,_FOOBAR_DOTHING,count)
}
".
Proof. vm_compute. reflexivity. Qed.

Example CamelCase_samples :
  CamelCase "wl_display" = "Display"
  ∧ CamelCase "get_registry" = "GetRegistry"
  ∧ CamelCase "wl_shell_surface" = "ShellSurface"
  ∧ CamelCase "wl_wl_foo" = "WlFoo"
  ∧ CamelCase "a-b c__d_1x" = "A-BCD1x".
Proof. repeat split; reflexivity. Qed.

(** * Further properties of the scanner *)

(** ** The naming rule, continued *)




Lemma length_append (a b : string) :
  String.length (a +:+ b) = String.length a + String.length b.
Proof. induction a as [|c a IH]; simpl; [reflexivity | now rewrite IH]. Qed.




Lemma length_slice_from (n : nat) (s : string) :
  String.length (GoStrings.slice_from n s) ≤ String.length s.
Proof.
  revert s. induction n as [|n IH]; intros [|c s]; simpl; try lia.
  specialize (IH s). lia.
Qed.



(** The prefix is optional: a name that does not itself start with [wl_]
    gets the same identifier with the prefix in front of it. *)
Theorem CamelCase_prefix_optional (s : string) :
  GoStrings.HasPrefix s "wl_" = false →
  CamelCase ("wl_" +:+ s) = CamelCase s.
Proof.
  intros Hp.
  assert (Hwl : GoStrings.HasPrefix ("wl_" +:+ s) "wl_" = true)
    by (now destruct s).
  unfold CamelCase, GoStrings.TrimPrefix. rewrite Hwl, Hp. reflexivity.
Qed.

Lemma CamelCase_prefix_optional_witness :
  GoStrings.HasPrefix "shell_surface" "wl_" = false
  ∧ CamelCase ("wl_" +:+ "shell_surface") = CamelCase "shell_surface".
Proof.
  split; [reflexivity|].
  apply CamelCase_prefix_optional. reflexivity.
Defined.

Lemma Replace_app (a b : string) (old : ascii) (new : string) :
  GoStrings.Replace (a +:+ b) old new
  = GoStrings.Replace a old new +:+ GoStrings.Replace b old new.
Proof.
  induction a as [|c a IH]; simpl; [reflexivity|].
  now rewrite IH, append_assoc.
Qed.





(** A snake-case name can be read back from its identifier: writing an
    underscore and the lower-case letter for every upper-case letter gives
    an underscore and the name without its [wl_] prefix. *)
Theorem CamelCase_reads_back (s : string) :
  snake_case s = true →
  unwords (CamelCase s)
  = String "_" (if GoStrings.HasPrefix s "wl_"
                then GoStrings.TrimPrefix s "wl_" else s).
Proof. apply unwords_CamelCase. Qed.

Lemma CamelCase_reads_back_witness :
  snake_case "wl_data_device_manager" = true
  ∧ unwords (CamelCase "wl_data_device_manager") = "_data_device_manager".
Proof.
  split; [reflexivity|].
  exact (CamelCase_reads_back "wl_data_device_manager" eq_refl).
Defined.

(** ** Request-code names *)









(** ** Signatures as text *)

Lemma write_commas_after_first (l : list string) : ∀ (i : nat) (buf : string),
  0 < i →
  write_commas i l buf = buf +:+ flatten (map (fun s => "," +:+ s) l).
Proof.
  induction l as [|s l IH]; intros i buf Hi; simpl.
  - now rewrite append_nil_r.
  - destruct i; [lia|]. simpl. rewrite IH by lia.
    now rewrite ?append_assoc.
Qed.

Lemma concat_commas (s : string) (l : list string) :
  String.concat "," (s :: l) = s +:+ flatten (map (fun s => "," +:+ s) l).
Proof.
  revert s. induction l as [|s' l IH]; intros s.
  - simpl. now rewrite append_nil_r.
  - change (String.concat "," (s :: s' :: l))
      with (s +:+ "," +:+ String.concat "," (s' :: l)).
    rewrite IH. simpl. now rewrite ?append_assoc.
Qed.

Lemma write_commas_concat (l : list string) (buf : string) :
  write_commas 0 l buf = buf +:+ String.concat "," l.
Proof.
  destruct l as [|s l]; [simpl; now rewrite append_nil_r|].
  change (write_commas 0 (s :: l) buf) with (write_commas 1 l (buf +:+ s)).
  rewrite write_commas_after_first by lia.
  now rewrite concat_commas, append_assoc.
Qed.

Lemma signature_texts_aux (names : gmap string string) (req : Request) :
  requestArgs names req = String.concat "," (requestArgs_args names req)
  ∧ requestRets names req
    = match List.filter known_new_id (req_Args req) with
      | [] => " error"
      | _ :: _ =>
          "(" +:+ String.concat "," (requestRets_rets names req) +:+ ")"
      end.
Proof.
  split.
  - unfold requestArgs. now rewrite write_commas_concat.
  - unfold requestRets. rewrite write_commas_concat.
    rewrite requestRets_rets_flat_map, flat_map_requestRets_arg.
    destruct (List.filter known_new_id (req_Args req)) as [|arg l];
      [reflexivity|].
    simpl. rewrite length_app, length_map. simpl.
    replace (length l + 1) with (S (length l)) by lia. reflexivity.
Qed.

(** The parameter list is written as the parameters joined by commas, with
    no comma at either end and nothing at all for a request with no
    parameter; the returns are the bare [ error] when there is no
    constructed instance, and otherwise the pointers and the error joined
    by commas, between parentheses. *)
Theorem signature_texts (names : gmap string string) (req : Request) :
  requestArgs names req = String.concat "," (requestArgs_args names req)
  ∧ requestRets names req
    = match List.filter known_new_id (req_Args req) with
      | [] => " error"
      | _ :: _ =>
          "(" +:+ String.concat "," (requestRets_rets names req) +:+ ")"
      end.
Proof. exact (signature_texts_aux names req). Qed.

(** ** Method bodies as text *)

Lemma requestBody_locals_fold (names : gmap string string) (l : list Arg) :
  ∀ init : BodyLocals,
    params (fold_left (requestBody_arg names) l init)
    = params init ++ flat_map dispatch_values l
    ∧ bodyBuffer (fold_left (requestBody_arg names) l init)
      = bodyBuffer init
        +:+ flatten (map (construction names) (List.filter known_new_id l)).
Proof.
  induction l as [|arg l IH]; intros init.
  - cbn. now rewrite app_nil_r, append_nil_r.
  - cbn [fold_left flat_map List.filter].
    destruct (IH (requestBody_arg names init arg)) as [-> ->].
    unfold requestBody_arg, dispatch_values, known_new_id, construction.
    destruct (String.eqb (arg_Type arg) "new_id");
      [destruct (String.eqb (arg_Interface arg) "")|];
      cbn [params bodyBuffer negb andb map flatten foldr];
      rewrite <- ?app_assoc, ?append_assoc; split; reflexivity.
Qed.

Lemma requestBody_text_aux (names : gmap string string) (req : Request)
    (reqCodeName : string) :
  requestBody names req reqCodeName
  = flatten (map (construction names)
                 (List.filter known_new_id (req_Args req)))
    +:+ "return "
    +:+ (if existsb known_new_id (req_Args req) then "ret," else "")
    +:+ " p.Connection().SendRequest(p," +:+ reqCodeName
    +:+ flatten (map (fun value => "," +:+ value)
                     (flat_map dispatch_values (req_Args req)))
    +:+ ")".
Proof.
  unfold requestBody, requestBody_locals.
  destruct (requestBody_locals_fold names (req_Args req)
              {| params := []; bodyBuffer := ""; hasRetType := "" |})
    as [-> ->].
  rewrite hasRetType_fold.
  cbn [params bodyBuffer hasRetType app String.append].
  assert (Hjoin : ∀ (l : list string) (buf : string),
    fold_left (fun buf param => buf +:+ "," +:+ param) l buf
    = buf +:+ flatten (map (fun value => "," +:+ value) l)).
  { induction l as [|x l IH]; intros buf;
      cbn [fold_left map flatten foldr].
    - now rewrite append_nil_r.
    - rewrite IH. now rewrite ?append_assoc. }
  rewrite Hjoin. reflexivity.
Qed.

(** The body of a method is one construction per new-id argument with a
    known interface, in argument order, and then a single return statement
    with a single dispatch call, which is given the receiver, the request
    code and, argument by argument in order, the constructed proxy for such
    an argument, the interface name, the version and the argument for a
    new-id argument with no interface, and the argument itself for any
    other. *)
Theorem requestBody_text (names : gmap string string) (req : Request)
    (reqCodeName : string) :
  requestBody names req reqCodeName
  = flatten (map (construction names)
                 (List.filter known_new_id (req_Args req)))
    +:+ "return "
    +:+ (if existsb known_new_id (req_Args req) then "ret," else "")
    +:+ " p.Connection().SendRequest(p," +:+ reqCodeName
    +:+ flatten (map (fun value => "," +:+ value)
                     (flat_map dispatch_values (req_Args req)))
    +:+ ")".
Proof. exact (requestBody_text_aux names req reqCodeName). Qed.

(** A request with exactly one new-id argument of a known interface, the
    case of every constructor request: the method declares the pointer and
    the error as its returns, constructs the instance once and returns
    that instance with the result of the dispatch call. *)
Theorem single_new_id_request (names : gmap string string) (req : Request)
    (arg : Arg) (reqCodeName : string) :
  List.filter known_new_id (req_Args req) = [arg] →
  requestRets names req
  = "(" +:+ "*" +:+ index names (arg_Interface arg) +:+ ", error)"
  ∧ requestBody names req reqCodeName
    = "ret := New" +:+ index names (arg_Interface arg)
        +:+ "(p.Connection())" +:+ fmt.nl
        +:+ "return ret, p.Connection().SendRequest(p," +:+ reqCodeName
        +:+ flatten (map (fun value => "," +:+ value)
                         (flat_map dispatch_values (req_Args req)))
        +:+ ")".
Proof.
  intros Hone. split.
  - destruct (signature_texts_aux names req) as [_ ->].
    rewrite Hone, requestRets_rets_flat_map, flat_map_requestRets_arg, Hone.
    simpl. now rewrite ?append_assoc.
  - rewrite requestBody_text_aux, Hone.
    assert (Hex : existsb known_new_id (req_Args req) = true).
    { apply existsb_exists. exists arg.
      assert (Hin : In arg (List.filter known_new_id (req_Args req)))
        by (rewrite Hone; now left).
      now apply filter_In in Hin. }
    rewrite Hex. unfold construction. simpl.
    now rewrite ?append_assoc.
Qed.


(** ** Argument types in the two positions *)

(** For an argument of a primitive kind, and for an object argument with
    a known interface, the parameter and the event field have the same
    type: the entry of the table, or a pointer to the interface type.  The
    parameter keeps the name of the argument, the field has it cased. *)
Theorem parameter_and_field_types_agree (names : gmap string string)
    (arg : Arg) (args : list string) :
  primitive arg = true
  ∨ (arg_Type arg = "object" ∧ arg_Interface arg ≠ "") →
  ∃ type : string,
    (type = index wlTypes (arg_Type arg) ∧ primitive arg = true
     ∨ type = "*" +:+ index names (arg_Interface arg)
       ∧ arg_Type arg = "object")
    ∧ requestArgs_arg names args arg
      = args ++ [arg_Name arg +:+ " " +:+ type]
    ∧ event_field names arg
      = CamelCase (arg_Name arg) +:+ " " +:+ type +:+ fmt.nl.
Proof.
  intros [Hprim | [Hobj Hiface]].
  - exists (index wlTypes (arg_Type arg)).
    split; [now left|].
    destruct (primitive_not_interface_typed arg Hprim) as [Hn Ho].
    unfold requestArgs_arg, event_field, index. rewrite Hn, Ho.
    unfold primitive in Hprim. apply bool_decide_eq_true in Hprim as [t Ht].
    rewrite Ht. split; reflexivity.
  - exists ("*" +:+ index names (arg_Interface arg)).
    split; [now right|].
    apply String.eqb_neq in Hiface.
    unfold requestArgs_arg, event_field. rewrite Hobj, Hiface.
    split; reflexivity.
Qed.

Lemma parameter_and_field_types_agree_witness :
  let names : gmap string string := {[ "wl_surface" := "Surface" ]} in
  let arg := mk_arg "surface" "object" "wl_surface" in
  (arg_Type arg = "object" ∧ arg_Interface arg ≠ "")
  ∧ ∃ type : string,
      requestArgs_arg names [] arg = [arg_Name arg +:+ " " +:+ type]
      ∧ event_field names arg
        = CamelCase (arg_Name arg) +:+ " " +:+ type +:+ fmt.nl.
Proof.
  intros names arg.
  assert (H : arg_Type arg = "object" ∧ arg_Interface arg ≠ "")
    by (split; [reflexivity | discriminate]).
  split; [exact H|].
  destruct (parameter_and_field_types_agree names arg [] (or_intror H))
    as (type & _ & Hparam & Hfield).
  exists type. split; assumption.
Defined.

Lemma single_new_id_request_witness :
  let names : gmap string string := {[ "wl_registry" := "Registry" ]} in
  let req :=
    mk_request "get_registry" [ mk_arg "registry" "new_id" "wl_registry" ] in
  List.filter known_new_id (req_Args req)
  = [ mk_arg "registry" "new_id" "wl_registry" ]
  ∧ requestRets names req = "(" +:+ "*Registry, error)"
  ∧ requestBody names req "_DISPLAY_GETREGISTRY"
    = "ret := NewRegistry(p.Connection())" +:+ fmt.nl
      +:+ "return ret, p.Connection().SendRequest(p,_DISPLAY_GETREGISTRY,Proxy(ret))".
Proof.
  intros names req.
  assert (H : List.filter known_new_id (req_Args req)
              = [ mk_arg "registry" "new_id" "wl_registry" ])
    by reflexivity.
  split; [exact H|].
  exact (single_new_id_request names req _ "_DISPLAY_GETREGISTRY" H).
Defined.

(** ** The name table after a run *)

Lemma registers_same (g g' : Globals) :
  wlNames g' = wlNames g → registers [] g g'.
Proof.
  intros H k. rewrite H. destruct (decide (k ∈ [])) as [Hin|]; [|reflexivity].
  inversion Hin.
Qed.

Lemma registers_trans (l1 l2 : list string) (g1 g2 g3 : Globals) :
  registers l1 g1 g2 → registers l2 g2 g3 → registers (l1 ++ l2) g1 g3.
Proof.
  intros H1 H2 k. rewrite H2, H1.
  destruct (decide (k ∈ l2)), (decide (k ∈ l1)), (decide (k ∈ l1 ++ l2))
    as [Hin|Hout]; try reflexivity;
    try (exfalso; apply Hout; apply elem_of_app; tauto).
  apply elem_of_app in Hin. tauto.
Qed.

Lemma registers_registerAndCase (wlName : string) (g : Globals) :
  registers [wlName] g (snd (registerAndCase wlName g)).
Proof.
  intros k. simpl. destruct (decide (k ∈ [wlName])) as [Hin|Hout].
  - apply list_elem_of_singleton in Hin as ->. apply lookup_insert_eq.
  - apply lookup_insert_ne. intros ->. apply Hout, list_elem_of_here.
Qed.

Lemma registers_fold_left {A : Type} (f : Globals → A → Globals)
    (names_of : A → list string) (l : list A) :
  (∀ g x, registers (names_of x) g (f g x)) →
  ∀ g, registers (flat_map names_of l) g (fold_left f l g).
Proof.
  intros Hf. induction l as [|x l IH]; intros g; simpl.
  - now apply registers_same.
  - eapply registers_trans; [apply Hf | apply IH].
Qed.

Lemma registers_entry_iter (ifaceName enumName constTypeName : string)
    (g : Globals) (entry : Entry) :
  registers [entry_Name entry] g
    (entry_iter ifaceName enumName constTypeName g entry).
Proof. apply registers_registerAndCase. Qed.

Lemma flat_map_singleton {A B : Type} (f : A → B) (l : list A) :
  flat_map (fun x => [f x]) l = map f l.
Proof. induction l as [|x l IH]; simpl; [reflexivity | now rewrite IH]. Qed.

Lemma registers_enum_iter (ifaceName : string) (g : Globals) (enum : Enum) :
  registers (enum_names enum) g (enum_iter ifaceName g enum).
Proof.
  unfold enum_iter, enum_names. cbn [registerAndCase].
  intros k.
  match goal with
  | |- wlNames (constBuffer_WriteString _ (fold_left ?f ?l ?g0)) !! k = _ =>
      pose proof (registers_fold_left f (fun entry => [entry_Name entry]) l
                    (registers_entry_iter _ _ _) g0 k) as H
  end.
  rewrite flat_map_singleton in H.
  change (wlNames (constBuffer_WriteString ?s ?g0)) with (wlNames g0).
  rewrite H. cbn [wlNames constBuffer_WriteString].
  destruct (decide (k ∈ map entry_Name (enum_Entries enum))) as [Hin|Hout],
    (decide (k ∈ enum_Name enum :: map entry_Name (enum_Entries enum)))
    as [Hin'|Hout']; try reflexivity.
  - exfalso. apply Hout'. now apply list_elem_of_further.
  - apply elem_of_cons in Hin' as [->|Hin']; [|contradiction].
    apply lookup_insert_eq.
  - apply lookup_insert_ne. intros <-. apply Hout', list_elem_of_here.
Qed.

Lemma registers_event_loop (ifaceName : string) (events : list Event) :
  ∀ (g : Globals) (l : EventLocals),
    registers (map event_Name events) g
      (fst (fold_left (event_iter ifaceName) events (g, l))).
Proof.
  induction events as [|event events IH]; intros g l.
  - now apply registers_same.
  - change (fold_left (event_iter ifaceName) (event :: events) (g, l))
      with (fold_left (event_iter ifaceName) events
              (event_iter ifaceName (g, l) event)).
    assert (Hstep : registers [event_Name event] g
                      (fst (event_iter ifaceName (g, l) event)))
      by apply registers_registerAndCase.
    destruct (event_iter ifaceName (g, l) event) as [g1 l1].
    apply (registers_trans [event_Name event] _ g g1); [exact Hstep|].
    apply IH.
Qed.

Lemma registers_interface_iter (g : Globals) (iface : Interface) :
  registers (member_names iface) g (interface_iter g iface).
Proof.
  unfold interface_iter, member_names.
  pose proof (registers_event_loop
                (index (wlNames g) (iface_Name iface)) (iface_Events iface) g
                {| eventBuffer := ""; eventNames := [] |}) as Hev.
  destruct (fold_left (event_iter _) (iface_Events iface) _) as [g1 ev].
  simpl in Hev.
  eapply registers_trans; [exact Hev|].
  rewrite !ifaceBuffer_fold_WriteString.
  intros k.
  rewrite (registers_fold_left
             (enum_iter (index (wlNames g) (iface_Name iface)))
             enum_names (iface_Enums iface) (registers_enum_iter _) _ k).
  rewrite (proj1 (requests_loop_spec _ _ _ _)). reflexivity.
Qed.

(** When the run ends the name table holds the names of the interfaces,
    events, enums and enum entries of the protocol, each with its generated
    identifier, and nothing else: no request name and no argument name is
    ever registered, and no entry holds anything but the identifier of its
    own key. *)
Theorem registry_after_run (protocol : Protocol) (k : string) :
  wlNames (generate protocol) !! k
  = if decide (k ∈ registered_names protocol)
    then Some (CamelCase k) else None.
Proof.
  unfold registered_names.
  set (start :=
         constBuffer_WriteString "package wl"
           {| wlNames := ∅; constBuffer := ""; ifaceBuffer := "";
              reqCodesBuffer := "" |}).
  set (registered :=
         fold_left
           (fun g iface => snd (registerAndCase (iface_Name iface) g))
           (proto_Interfaces protocol) start).
  assert (H1 : registers (map iface_Name (proto_Interfaces protocol))
                 start registered).
  { rewrite <- flat_map_singleton.
    apply (registers_fold_left
             (fun g iface => snd (registerAndCase (iface_Name iface) g))
             (fun iface => [iface_Name iface])).
    intros g iface. apply registers_registerAndCase. }
  pose proof (registers_fold_left interface_iter member_names
                (proto_Interfaces protocol) registers_interface_iter
                (reqCodesBuffer_WriteString (fmt.nl +:+ "const (" +:+ fmt.nl)
                   (reqCodesBuffer_WriteString
                      (fmt.nl +:+ "//Interface Request Codes" +:+ fmt.nl)
                      registered))) as H2.
  pose proof (registers_trans _ _ start _ _ H1 H2 k) as H.
  change (wlNames (generate protocol) !! k) with
    (wlNames
       (fold_left interface_iter (proto_Interfaces protocol)
          (reqCodesBuffer_WriteString (fmt.nl +:+ "const (" +:+ fmt.nl)
             (reqCodesBuffer_WriteString
                (fmt.nl +:+ "//Interface Request Codes" +:+ fmt.nl)
                registered))) !! k).
  rewrite H. destruct (decide _); [reflexivity|]. apply lookup_empty.
Qed.

(** ** The constants block *)

Lemma constBuffer_fold_left {A : Type} (f : Globals → A → Globals)
    (text : A → string) (l : list A) :
  (∀ g x, constBuffer (f g x) = constBuffer g +:+ text x) →
  ∀ g, constBuffer (fold_left f l g) = constBuffer g +:+ flatten (map text l).
Proof.
  intros Hf. induction l as [|x l IH]; intros g; cbn [fold_left map flatten foldr].
  - now rewrite append_nil_r.
  - now rewrite IH, Hf, append_assoc.
Qed.

Lemma constBuffer_enum_iter (ifaceName : string) (g : Globals) (enum : Enum) :
  constBuffer (enum_iter ifaceName g enum)
  = constBuffer g +:+ enum_text ifaceName enum.
Proof.
  unfold enum_iter, enum_text. cbn [registerAndCase].
  cbn [constBuffer_WriteString constBuffer].
  rewrite (constBuffer_fold_left _
             (entry_line ifaceName (CamelCase (enum_Name enum))))
    by reflexivity.
  unfold constBuffer_WriteString. cbn [constBuffer].
  now rewrite ?append_assoc.
Qed.

Lemma constBuffer_interface_iter (g : Globals) (iface : Interface) :
  constBuffer (interface_iter g iface)
  = constBuffer g
    +:+ flatten (map (enum_text (index (wlNames g) (iface_Name iface)))
                     (iface_Enums iface)).
Proof.
  unfold interface_iter.
  pose proof (event_loop_constBuffer
                (index (wlNames g) (iface_Name iface)) (iface_Events iface) g
                {| eventBuffer := ""; eventNames := [] |}) as Hev.
  destruct (fold_left (event_iter _) (iface_Events iface) _) as [g1 ev].
  simpl in Hev.
  rewrite (constBuffer_fold_left _ _ _ (constBuffer_enum_iter _)).
  rewrite requests_loop_constBuffer, !ifaceBuffer_fold_WriteString.
  cbn [ifaceBuffer_WriteString constBuffer]. now rewrite Hev.
Qed.

Lemma interfaces_loop_constBuffer (ifaces : list Interface) :
  ∀ g : Globals,
    (∀ iface : Interface,
       iface ∈ ifaces →
       wlNames g !! iface_Name iface = Some (CamelCase (iface_Name iface))) →
    constBuffer (fold_left interface_iter ifaces g)
    = constBuffer g +:+ flatten (flat_map constants_text ifaces).
Proof.
  induction ifaces as [|iface ifaces IH]; intros g Hreg;
    cbn [fold_left flat_map].
  - cbn. now rewrite append_nil_r.
  - rewrite IH.
    + rewrite constBuffer_interface_iter, flatten_app, append_assoc.
      rewrite (index_registered _ _ (Hreg iface (list_elem_of_here _ _))).
      reflexivity.
    + intros iface' Hin. apply (interface_iter_spec g iface), Hreg.
      now apply list_elem_of_further.
Qed.

(** The constants block is the package clause and then, interface by
    interface and enum by enum in document order, a type named by the
    interface and the enum and a constant group with one constant per
    entry, in entry order; the constant is named by the interface, the
    enum and the entry, has the type of the enum, and its value is the
    value of the entry as the description spells it. *)
Theorem constants_block (protocol : Protocol) :
  constBuffer (generate protocol)
  = "package wl"
    +:+ flatten (flat_map constants_text (proto_Interfaces protocol))
  ∧ ∀ (iface : Interface) (enum : Enum) (i : nat) (entry : Entry),
      enum_Entries enum !! i = Some entry →
      map (entry_line (CamelCase (iface_Name iface))
                      (CamelCase (enum_Name enum)))
          (enum_Entries enum) !! i
      = Some (CamelCase (iface_Name iface) +:+ CamelCase (enum_Name enum)
                +:+ CamelCase (entry_Name entry)
                +:+ " " +:+ CamelCase (iface_Name iface)
                +:+ CamelCase (enum_Name enum)
                +:+ " = " +:+ entry_Value entry +:+ fmt.nl).
Proof.
  split.
  - destruct (before_interfaces_loop protocol)
      as (g & -> & Hconst & _ & _ & Hreg).
    cbn [reqCodesBuffer_WriteString constBuffer].
    now rewrite (interfaces_loop_constBuffer _ g Hreg), Hconst.
  - intros iface enum i entry Hentry.
    rewrite list_lookup_fmap, Hentry. unfold entry_line. cbn [fmap option_fmap option_map].
    now rewrite ?append_assoc.
Qed.

Lemma constants_block_witness :
  let enum :=
    {| enum_Name := "error"; enum_BitField := false;
       enum_Description := no_description;
       enum_Entries :=
         [ {| entry_Name := "invalid_object"; entry_Value := "0";
              entry_Summary := "" |};
           {| entry_Name := "no_memory"; entry_Value := "0x2";
              entry_Summary := "" |} ] |} in
  let iface := mk_interface "wl_display" [] [] [enum] in
  enum_Entries enum !! 1
  = Some {| entry_Name := "no_memory"; entry_Value := "0x2";
            entry_Summary := "" |}
  ∧ map (entry_line (CamelCase (iface_Name iface))
                    (CamelCase (enum_Name enum)))
        (enum_Entries enum) !! 1
    = Some ("DisplayErrorNoMemory DisplayError = 0x2" +:+ fmt.nl).
Proof.
  intros enum iface.
  assert (H : enum_Entries enum !! 1
              = Some {| entry_Name := "no_memory"; entry_Value := "0x2";
                        entry_Summary := "" |}) by reflexivity.
  split; [exact H|].
  exact (proj2 (constants_block (mk_protocol [iface])) iface enum 1 _ H).
Defined.

(** ** Event types and methods in the output *)

Lemma cased_registers (l : list string) (g g' : Globals) :
  registers l g g' → cased (wlNames g) → cased (wlNames g').
Proof.
  intros Hreg Hcased k v. rewrite (Hreg k).
  destruct (decide (k ∈ l)); [now intros [= <-] | apply Hcased].
Qed.

Lemma index_cased (names : gmap string string) (k : string) :
  cased names → index names k = CamelCase k ∨ index names k = "".
Proof.
  intros Hcased. unfold index. destruct (names !! k) as [v|] eqn:Hk.
  - left. simpl. now apply Hcased.
  - now right.
Qed.

(** The state in which the second loop of [main] starts, once more, with
    its name table. *)
Lemma before_interfaces_loop_cased (protocol : Protocol) :
  ∃ g : Globals,
    generate protocol
    = reqCodesBuffer_WriteString ")"
        (fold_left interface_iter (proto_Interfaces protocol) g)
    ∧ cased (wlNames g)
    ∧ ∀ iface : Interface,
        iface ∈ proto_Interfaces protocol →
        wlNames g !! iface_Name iface = Some (CamelCase (iface_Name iface)).
Proof.
  unfold generate.
  match goal with
  | |- context [fold_left interface_iter _ ?g0] => exists g0
  end.
  split; [reflexivity|].
  match goal with
  | |- context [fold_left ?f (proto_Interfaces protocol) ?g0] =>
      destruct (register_interfaces_spec (proto_Interfaces protocol) g0)
        as (_ & _ & Hreg);
      pose proof (registers_fold_left f (fun iface => [iface_Name iface])
                    (proto_Interfaces protocol)
                    (fun g iface => registers_registerAndCase _ g) g0)
        as Hregisters
  end.
  unfold reqCodesBuffer_WriteString. cbn [wlNames]. split; [|exact Hreg].
  eapply cased_registers; [exact Hregisters|].
  intros k v. cbn. now rewrite lookup_empty.
Qed.

Lemma interfaces_loop_cased (ifaces : list Interface) (g : Globals) :
  cased (wlNames g) → cased (wlNames (fold_left interface_iter ifaces g)).
Proof.
  apply cased_registers with (l := flat_map member_names ifaces).
  apply registers_fold_left, registers_interface_iter.
Qed.

Lemma event_fields_fold (names : gmap string string) (args : list Arg) :
  ∀ buf : string,
    fold_left (fun buf arg => buf +:+ event_field names arg) args buf
    = buf +:+ flatten (map (event_field names) args).
Proof.
  induction args as [|arg args IH]; intros buf;
    cbn [fold_left map flatten foldr].
  - now rewrite append_nil_r.
  - now rewrite IH, append_assoc.
Qed.

(** One event: its name is registered and its struct type is written with
    the table that has it. *)
Lemma event_iter_text (ifaceName : string) (g : Globals) (l : EventLocals)
    (event : Event) :
  fst (event_iter ifaceName (g, l) event)
  = snd (registerAndCase (event_Name event) g)
  ∧ eventBuffer (snd (event_iter ifaceName (g, l) event))
    = eventBuffer l
      +:+ event_type_text
            (wlNames (snd (registerAndCase (event_Name event) g)))
            ifaceName event.
Proof.
  split; [reflexivity|].
  unfold event_iter, event_type_text. cbn [registerAndCase snd eventBuffer].
  rewrite event_fields_fold. now rewrite ?append_assoc.
Qed.

Lemma event_loop_grows (ifaceName : string) (events : list Event) :
  ∀ (g : Globals) (l : EventLocals),
    ∃ rest : string,
      eventBuffer (snd (fold_left (event_iter ifaceName) events (g, l)))
      = eventBuffer l +:+ rest.
Proof.
  induction events as [|event events IH]; intros g l.
  - exists "". cbn. now rewrite append_nil_r.
  - change (fold_left (event_iter ifaceName) (event :: events) (g, l))
      with (fold_left (event_iter ifaceName) events
              (event_iter ifaceName (g, l) event)).
    destruct (event_iter_text ifaceName g l event) as [_ Hstep].
    destruct (event_iter ifaceName (g, l) event) as [g1 l1].
    destruct (IH g1 l1) as [rest Hrest]. cbn [snd] in Hstep.
    rewrite Hrest, Hstep. eexists. now rewrite append_assoc.
Qed.

(** The struct type of the event at any position is part of what the loop
    over the events writes, and the table it was written with keeps what
    was registered before the loop and has the name of the event. *)
Lemma event_loop_holds_event (ifaceName : string) (events : list Event)
    (j : nat) (event : Event) (g : Globals) :
  events !! j = Some event →
  ∃ (names : gmap string string) (before after : string),
    eventBuffer
      (snd (fold_left (event_iter ifaceName) events
              (g, {| eventBuffer := ""; eventNames := [] |})))
    = before +:+ event_type_text names ifaceName event +:+ after
    ∧ names !! event_Name event = Some (CamelCase (event_Name event))
    ∧ (cased (wlNames g) → cased names)
    ∧ ∀ k : string,
        wlNames g !! k = Some (CamelCase k) → names !! k = Some (CamelCase k).
Proof.
  intros Hj. rewrite <- (take_drop_middle events j event Hj), fold_left_app.
  set (e1 := take j events). set (e2 := drop (S j) events).
  destruct (event_loop_spec ifaceName e1 g
              {| eventBuffer := ""; eventNames := [] |})
    as [(_ & _ & Hkeep) _].
  pose proof (registers_event_loop ifaceName e1 g
                {| eventBuffer := ""; eventNames := [] |}) as Hreg.
  destruct (fold_left (event_iter ifaceName) e1 _) as [g1 l1].
  cbn [fst] in Hkeep, Hreg. cbn [fold_left].
  destruct (event_iter_text ifaceName g1 l1 event) as [Hg2 Hstep].
  destruct (event_iter ifaceName (g1, l1) event) as [g2 l2].
  cbn [fst snd] in Hg2, Hstep.
  destruct (event_loop_grows ifaceName e2 g2 l2) as [rest Hrest].
  exists (wlNames g2), (eventBuffer l1), rest.
  split; [now rewrite Hrest, Hstep, Hg2, ?append_assoc|].
  rewrite Hg2. split; [apply lookup_insert_eq|]. split.
  - intros Hcased.
    apply (cased_registers [event_Name event] g1 _
             (registers_registerAndCase _ g1)).
    now apply (cased_registers _ g g1 Hreg).
  - intros k Hk. now apply (quiet_registerAndCase (event_Name event) g1), Hkeep.
Qed.

Lemma request_iter_text (ifaceName : string) (order : nat) (req : Request)
    (g : Globals) :
  ifaceBuffer (request_iter ifaceName order req g)
  = ifaceBuffer g +:+ method_text (wlNames g) ifaceName req.
Proof.
  unfold request_iter, method_text.
  unfold ifaceBuffer_WriteString, reqCodesBuffer_WriteString.
  cbn [ifaceBuffer wlNames]. now rewrite ?append_assoc.
Qed.

Lemma requests_loop_text (ifaceName : string) (reqs : list Request) :
  ∀ (order : nat) (g : Globals),
    ifaceBuffer (requests_loop ifaceName order reqs g)
    = ifaceBuffer g
      +:+ flatten (map (method_text (wlNames g) ifaceName) reqs).
Proof.
  induction reqs as [|req reqs IH]; intros order g;
    cbn [requests_loop map flatten foldr].
  - now rewrite append_nil_r.
  - rewrite IH, request_iter_text.
    rewrite (proj1 (request_iter_spec ifaceName order req g)).
    now rewrite append_assoc.
Qed.

Lemma ifaceBuffer_ifaceBuffer_WriteString (s : string) (g : Globals) :
  ifaceBuffer (ifaceBuffer_WriteString s g) = ifaceBuffer g +:+ s.
Proof. reflexivity. Qed.

Lemma wlNames_ifaceBuffer_WriteString (s : string) (g : Globals) :
  wlNames (ifaceBuffer_WriteString s g) = wlNames g.
Proof. reflexivity. Qed.

Lemma enum_loop_ifaceBuffer (ifaceName : string) (enums : list Enum)
    (g : Globals) :
  ifaceBuffer (fold_left (enum_iter ifaceName) enums g) = ifaceBuffer g.
Proof.
  now destruct (quiet_fold_left (enum_iter ifaceName) enums
                  (quiet_enum_iter ifaceName) g) as (_ & H & _).
Qed.

(** What one interface adds to the interface buffer, part by part. *)
Lemma interface_iter_text (g : Globals) (iface : Interface) :
  let ifaceName := index (wlNames g) (iface_Name iface) in
  let after_events :=
    fold_left (event_iter ifaceName) (iface_Events iface)
              (g, {| eventBuffer := ""; eventNames := [] |}) in
  ifaceBuffer (interface_iter g iface)
  = ifaceBuffer g
    +:+ eventBuffer (snd after_events)
    +:+ interface_type_text ifaceName
          (map (chan_field ifaceName) (event_identifiers iface))
    +:+ constructor_text ifaceName
          (map (chan_make ifaceName) (event_identifiers iface))
    +:+ flatten (map (method_text (wlNames (fst after_events)) ifaceName)
                     (iface_Requests iface)).
Proof.
  intros ifaceName after_events. unfold interface_iter. fold ifaceName.
  destruct (event_loop_spec ifaceName (iface_Events iface) g
              {| eventBuffer := ""; eventNames := [] |})
    as [(_ & Hiface1 & _) Hnames].
  fold after_events in Hiface1, Hnames. fold after_events.
  destruct after_events as [g1 ev]. cbn [fst snd] in *. cbv beta iota.
  fold (event_identifiers iface) in Hnames.
  rewrite !ifaceBuffer_fold_WriteString, Hnames.
  rewrite enum_loop_ifaceBuffer, requests_loop_text.
  rewrite !wlNames_ifaceBuffer_WriteString, !ifaceBuffer_ifaceBuffer_WriteString.
  rewrite Hiface1. unfold interface_type_text, constructor_text.
  now rewrite ?append_assoc.
Qed.

(** Where the text of an interface sits in the interface buffer of the
    whole run, and the state its loop iteration started from. *)
Lemma interface_in_output (protocol : Protocol) (iface : Interface) :
  iface ∈ proto_Interfaces protocol →
  let ifaceName := CamelCase (iface_Name iface) in
  ∃ (g : Globals) (before after : string),
    cased (wlNames g)
    ∧ (∀ iface' : Interface,
         iface' ∈ proto_Interfaces protocol →
         wlNames g !! iface_Name iface'
         = Some (CamelCase (iface_Name iface')))
    ∧ ifaceBuffer (generate protocol)
      = before
        +:+ (eventBuffer
               (snd (fold_left (event_iter ifaceName) (iface_Events iface)
                       (g, {| eventBuffer := ""; eventNames := [] |})))
             +:+ interface_type_text ifaceName
                   (map (chan_field ifaceName) (event_identifiers iface))
             +:+ constructor_text ifaceName
                   (map (chan_make ifaceName) (event_identifiers iface))
             +:+ flatten
                   (map (method_text
                           (wlNames
                              (fst (fold_left (event_iter ifaceName)
                                      (iface_Events iface)
                                      (g, {| eventBuffer := "";
                                             eventNames := [] |}))))
                           ifaceName)
                        (iface_Requests iface)))
        +:+ after.
Proof.
  intros Hin ifaceName.
  destruct (before_interfaces_loop_cased protocol)
    as (g0 & -> & Hcased & Hreg).
  cbn [reqCodesBuffer_WriteString ifaceBuffer].
  destruct (list_elem_of_split _ _ Hin) as (l1 & l2 & Hsplit).
  assert (Hfold : fold_left interface_iter (proto_Interfaces protocol) g0
                  = fold_left interface_iter l2
                      (interface_iter (fold_left interface_iter l1 g0) iface))
    by (rewrite Hsplit, fold_left_app; reflexivity).
  rewrite Hfold. clear Hfold.
  set (g1 := fold_left interface_iter l1 g0).
  assert (Hreg1 : ∀ iface' : Interface,
            iface' ∈ proto_Interfaces protocol →
            wlNames g1 !! iface_Name iface'
            = Some (CamelCase (iface_Name iface'))).
  { intros iface' Hin'. subst g1.
    now apply interfaces_loop_keeps_registered, Hreg. }
  assert (Hname : index (wlNames g1) (iface_Name iface) = ifaceName)
    by now apply index_registered, Hreg1.
  pose proof (interface_iter_text g1 iface) as Htext.
  cbv zeta in Htext. rewrite Hname in Htext.
  destruct (interfaces_loop_ifaceBuffer_grows l2 (interface_iter g1 iface))
    as [rest Hrest].
  exists g1, (ifaceBuffer g1), rest.
  split; [subst g1; now apply interfaces_loop_cased|].
  split; [exact Hreg1|].
  rewrite Hrest, Htext. now rewrite ?append_assoc.
Qed.

Lemma flatten_map_middle {A : Type} (f : A → string) (l : list A) (i : nat)
    (x : A) :
  l !! i = Some x →
  flatten (map f l)
  = flatten (map f (take i l)) +:+ f x +:+ flatten (map f (drop (S i) l)).
Proof.
  intros Hi. rewrite <- (take_drop_middle l i x Hi) at 1.
  rewrite map_app, flatten_app. reflexivity.
Qed.

(** For every request of every interface of the protocol the output has
    the method of the request: its signature, and a body whose dispatch
    call is given the very constant that the request-code block defines as
    the position of the request.  The name table the method is written with
    has every interface of the protocol, declared before or after, so a
    reference to any of them is written with its identifier; any other
    name is looked up as its own identifier or as nothing. *)
Theorem methods_in_output (protocol : Protocol) (iface : Interface)
    (order : nat) (req : Request) :
  iface ∈ proto_Interfaces protocol →
  iface_Requests iface !! order = Some req →
  let ifaceName := CamelCase (iface_Name iface) in
  let reqName := CamelCase (req_Name req) in
  ∃ (names : gmap string string) (before after : string),
    ifaceBuffer (generate protocol)
    = before
      +:+ (fmt.nl +:+ "func (p *" +:+ ifaceName +:+ ") " +:+ reqName +:+ "("
             +:+ requestArgs names req
             +:+ ")"
             +:+ requestRets names req
             +:+ "{" +:+ fmt.nl
             +:+ requestBody names req (reqCodeName_of ifaceName reqName)
             +:+ fmt.nl +:+ "}" +:+ fmt.nl)
      +:+ after
    ∧ request_code_lines iface !! order
      = Some (reqCodeName_of ifaceName reqName
                +:+ " = " +:+ fmt.d order +:+ fmt.nl)
    ∧ (∀ iface' : Interface,
         iface' ∈ proto_Interfaces protocol →
         index names (iface_Name iface') = CamelCase (iface_Name iface'))
    ∧ (∀ k : string, index names k = CamelCase k ∨ index names k = "").
Proof.
  intros Hin Hreq ifaceName reqName.
  destruct (interface_in_output protocol iface Hin)
    as (g & before & after & Hcased & Hreg & Htext).
  fold ifaceName in Htext.
  destruct (event_loop_spec ifaceName (iface_Events iface) g
              {| eventBuffer := ""; eventNames := [] |})
    as [(_ & _ & Hkeep) _].
  pose proof (registers_event_loop ifaceName (iface_Events iface) g
                {| eventBuffer := ""; eventNames := [] |}) as Hregs.
  destruct (fold_left (event_iter ifaceName) (iface_Events iface) _)
    as [g1 ev].
  cbn [fst snd] in *.
  exists (wlNames g1).
  rewrite (flatten_map_middle _ _ order req Hreq) in Htext.
  match type of Htext with
  | _ = ?b +:+ (?e +:+ ?i +:+ ?c +:+ (?f1 +:+ ?m +:+ ?f2)) +:+ ?a =>
      exists (b +:+ e +:+ i +:+ c +:+ f1), (f2 +:+ a)
  end.
  split; [|split; [|split]].
  - rewrite Htext. unfold method_text. fold reqName.
    rewrite !append_assoc. reflexivity.
  - unfold request_code_lines. rewrite list_lookup_imap, Hreq. reflexivity.
  - intros iface' Hin'. now apply index_registered, Hkeep, Hreg.
  - intros k. apply index_cased. now apply (cased_registers _ g g1 Hregs).
Qed.

Lemma methods_in_output_witness :
  let iface :=
    mk_interface "foo_bar"
      [ mk_request "do_thing" [ mk_arg "count" "int" "" ] ]
      [ mk_event "happened" [] ] [] in
  (iface ∈ proto_Interfaces foo_bar_protocol
   ∧ iface_Requests iface !! 0
     = Some (mk_request "do_thing" [ mk_arg "count" "int" "" ]))
  ∧ request_code_lines iface !! 0 = Some ("_FOOBAR_DOTHING = 0" +:+ fmt.nl).
Proof.
  intros iface.
  assert (Hin : iface ∈ proto_Interfaces foo_bar_protocol)
    by apply list_elem_of_here.
  assert (Hreq : iface_Requests iface !! 0
                 = Some (mk_request "do_thing" [ mk_arg "count" "int" "" ]))
    by reflexivity.
  split; [split; assumption|].
  destruct (methods_in_output foo_bar_protocol iface 0 _ Hin Hreq)
    as (names & before & after & _ & Hline & _).
  exact Hline.
Defined.

(** For every event of every interface of the protocol the output has the
    struct type of the event, named by the interface, the event and the
    suffix [Event], with one field per argument of the event, in argument
    order.  The name table the fields are typed with has every interface
    of the protocol, declared before or after, and the event itself. *)
Theorem event_types_in_output (protocol : Protocol) (iface : Interface)
    (j : nat) (event : Event) :
  iface ∈ proto_Interfaces protocol →
  iface_Events iface !! j = Some event →
  let ifaceName := CamelCase (iface_Name iface) in
  ∃ (names : gmap string string) (before after : string),
    ifaceBuffer (generate protocol)
    = before
      +:+ (fmt.nl +:+ "type " +:+ ifaceName
             +:+ CamelCase (event_Name event) +:+ "Event"
             +:+ " struct {" +:+ fmt.nl
             +:+ flatten (map (event_field names) (event_Args event))
             +:+ "}" +:+ fmt.nl)
      +:+ after
    ∧ length (map (event_field names) (event_Args event))
      = length (event_Args event)
    ∧ (∀ iface' : Interface,
         iface' ∈ proto_Interfaces protocol →
         index names (iface_Name iface') = CamelCase (iface_Name iface'))
    ∧ index names (event_Name event) = CamelCase (event_Name event)
    ∧ (∀ k : string, index names k = CamelCase k ∨ index names k = "").
Proof.
  intros Hin Hevent ifaceName.
  destruct (interface_in_output protocol iface Hin)
    as (g & before & after & Hcased & Hreg & Htext).
  fold ifaceName in Htext.
  destruct (event_loop_holds_event ifaceName (iface_Events iface) j event g
              Hevent)
    as (names & b & a & Hbuf & Hname & Hcased' & Hkeep).
  rewrite Hbuf in Htext.
  exists names. eexists (before +:+ b). eexists.
  split; [|split; [|split; [|split]]].
  - rewrite Htext. unfold event_type_text.
    rewrite ?append_assoc. reflexivity.
  - apply length_map.
  - intros iface' Hin'. now apply index_registered, Hkeep, Hreg.
  - now apply index_registered.
  - intros k. apply index_cased. now apply Hcased'.
Qed.

Lemma event_types_in_output_witness :
  let iface :=
    mk_interface "foo_bar"
      [ mk_request "do_thing" [ mk_arg "count" "int" "" ] ]
      [ mk_event "happened" [] ] [] in
  (iface ∈ proto_Interfaces foo_bar_protocol
   ∧ iface_Events iface !! 0 = Some (mk_event "happened" []))
  ∧ ∃ before after : string,
      ifaceBuffer (generate foo_bar_protocol)
      = before
        +:+ (fmt.nl +:+ "type " +:+ "FooBar" +:+ "Happened" +:+ "Event"
               +:+ " struct {" +:+ fmt.nl +:+ "" +:+ "}" +:+ fmt.nl)
        +:+ after.
Proof.
  intros iface.
  assert (Hin : iface ∈ proto_Interfaces foo_bar_protocol)
    by apply list_elem_of_here.
  assert (Hevent : iface_Events iface !! 0 = Some (mk_event "happened" []))
    by reflexivity.
  split; [split; assumption|].
  destruct (event_types_in_output foo_bar_protocol iface 0 _ Hin Hevent)
    as (names & before & after & Htext & _).
  exists before, after. exact Htext.
Defined.

(** ** Registering a name *)



(** ** Arities *)

Lemma length_flat_map_cons {A B : Type} (f : A → list B) (x : A)
    (l : list A) :
  length (flat_map f (x :: l)) = length (f x) + length (flat_map f l).
Proof. simpl. apply length_app. Qed.

(** The arity of a method: one parameter per argument that is not a
    new-id and three per new-id argument with no interface; one return per
    new-id argument with a known interface, and the error; and the
    dispatch call gets, after the receiver and the request code, as many
    values as there are parameters and constructed instances. *)
Theorem signature_arities (names : gmap string string) (req : Request) :
  length (requestArgs_args names req)
  = length (List.filter plain (req_Args req))
    + 3 * length (List.filter anonymous_new_id (req_Args req))
  ∧ length (requestRets_rets names req)
    = length (List.filter known_new_id (req_Args req)) + 1
  ∧ length (params (requestBody_locals names req))
    = length (requestArgs_args names req)
      + length (List.filter known_new_id (req_Args req)).
Proof.
  unfold requestBody_locals.
  destruct (requestBody_locals_fold names (req_Args req)
              {| params := []; bodyBuffer := ""; hasRetType := "" |})
    as [-> _].
  rewrite requestArgs_args_flat_map, requestRets_rets_flat_map,
    flat_map_requestRets_arg, length_app, length_map.
  cbn [params app length].
  split; [|split; [reflexivity|]].
  - induction (req_Args req) as [|arg l IH]; [reflexivity|].
    rewrite length_flat_map_cons, IH. cbn [List.filter].
    unfold requestArgs_arg, plain, anonymous_new_id.
    destruct (String.eqb (arg_Type arg) "new_id");
      [destruct (String.eqb (arg_Interface arg) "")
      |destruct (String.eqb (arg_Type arg) "object"
                 && negb (String.eqb (arg_Interface arg) ""))];
      cbn [negb andb app length]; lia.
  - induction (req_Args req) as [|arg l IH]; [reflexivity|].
    rewrite !length_flat_map_cons, IH. cbn [List.filter].
    unfold requestArgs_arg, dispatch_values, known_new_id.
    destruct (String.eqb (arg_Type arg) "new_id");
      [destruct (String.eqb (arg_Interface arg) "")
      |destruct (String.eqb (arg_Type arg) "object"
                 && negb (String.eqb (arg_Interface arg) ""))];
      cbn [negb andb app length]; lia.
Qed.
